(** * Vleer music plugin: a shallow embedding of [plugins/music.ts]

    The plugin object [music] of [src/plugins/music.ts] is embedded function
    by function.  The collaborators it calls -- the Tauri file-system plugin,
    the SQL plugin, the browser's blob registry and console -- are modelled
    as an explicit [World] threaded through a small state-and-exception
    monad, [Async]: an awaited promise either fulfils with a value or rejects
    with a thrown value, and in both cases the effects performed so far stay
    in the world. *)

From Stdlib Require Import ZArith Floats Uint63 Ascii String.
From stdpp Require Import gmap strings list fin_maps.

Local Open Scope string_scope.

(** ** JavaScript values

    [updatePlaylistCover] declares its second parameter as [any], so every
    JavaScript value can reach its guard. *)
Module Js.

#[warnings="-register-all"]
Inductive value : Type :=
| undefined
| null
| boolean (b : bool)
| number (n : Z)
| NaN
| str (s : string)
| closure
| object (props : list (string * value)).

(** [!v] is [negb (truthy v)]. *)
Definition truthy (v : value) : bool :=
  match v with
  | undefined | null | NaN => false
  | boolean b => b
  | number n => negb (n =? 0)%Z
  | str s => negb (String.eqb s "")
  | closure | object _ => true
  end.

Definition typeof (v : value) : string :=
  match v with
  | undefined => "undefined"
  | null | object _ => "object"
  | boolean _ => "boolean"
  | number _ | NaN => "number"
  | str _ => "string"
  | closure => "function"
  end.

Fixpoint own (props : list (string * value)) (key : string) : value :=
  match props with
  | [] => undefined
  | (k, v) :: rest => if String.eqb k key then v else own rest key
  end.

(** [v.key] for a value on which the read does not throw; a key that is
    not an own property reads as [undefined]. *)
Definition member (v : value) (key : string) : value :=
  match v with
  | object props => own props key
  | _ => undefined
  end.

(** The string a value holds once [typeof v === 'string'] is known. *)
Definition string_of (v : value) : string :=
  match v with
  | str s => s
  | _ => ""
  end.

(** [s.split(sep)] for a one-character separator: never the empty array. *)
Fixpoint split (sep : ascii) (s : string) : list string :=
  match s with
  | EmptyString => [EmptyString]
  | String c rest =>
      if Ascii.eqb c sep then EmptyString :: split sep rest
      else match split sep rest with
           | [] => [String c EmptyString]
           | seg :: segs => String c seg :: segs
           end
  end.

(** [a.pop()] read for its value; [None] stands for [undefined]. *)
Definition pop (a : list string) : option string := last a.

(** A template-literal hole filled with the result of [pop]. *)
Definition interpolate (o : option string) : string :=
  match o with
  | Some s => s
  | None => "undefined"
  end.

End Js.

(** ** The world outside the plugin *)

Definition bytes : Type := list Byte.byte.

(** The calls the plugin makes on the file-system and SQL plugins.  All
    paths are relative to [BaseDirectory.Audio]. *)
Inductive Op : Type :=
| OpExists (path : string)
| OpRemove (path : string)
| OpReadFile (path : string)
| OpWriteFile (path : string)
| OpExecute (sql : string) (args : list string).

(** A row of the [playlists] table, as far as the plugin touches it. *)
Record PlaylistRow : Type := mkRow { row_name : string; row_cover : string }.

(** What [getCoverURLFromID] and its siblings return: a literal URL, or the
    URL minted by [URL.createObjectURL], which names an entry of the
    document's blob registry. *)
Inductive Url : Type :=
| StaticUrl (s : string)
| BlobUrl (handle : nat).

Record World : Type := mkWorld {
  files : gmap string bytes;
  playlists : gmap string PlaylistRow;
  blobs : list bytes;
  console : list string;
  trace : list Op
}.

Definition set_files (f : gmap string bytes -> gmap string bytes) (w : World) : World :=
  mkWorld (f (files w)) (playlists w) (blobs w) (console w) (trace w).

Definition set_playlists (f : gmap string PlaylistRow -> gmap string PlaylistRow)
    (w : World) : World :=
  mkWorld (files w) (f (playlists w)) (blobs w) (console w) (trace w).

Definition record (op : Op) (w : World) : World :=
  mkWorld (files w) (playlists w) (blobs w) (console w) (trace w ++ [op]).

(** ** Promises as a state-and-exception monad *)

Inductive Thrown : Type :=
| TypeError (message : string)
| Error (message : string)
| Rejected (op : Op).

Inductive Completion (A : Type) : Type :=
| Fulfilled (a : A)
| Throw (e : Thrown).
Arguments Fulfilled {A} a.
Arguments Throw {A} e.

Definition Async (A : Type) : Type := World -> World * Completion A.

Definition ret {A} (a : A) : Async A := fun w => (w, Fulfilled a).

Definition throw {A} (e : Thrown) : Async A := fun w => (w, Throw e).

Definition bind {A B} (m : Async A) (k : A -> Async B) : Async B :=
  fun w =>
    match m w with
    | (w', Fulfilled a) => k a w'
    | (w', Throw e) => (w', Throw e)
    end.

Notation "'await' x <- m ; k" := (bind m (fun x => k))
  (at level 20, x name, m at level 100, k at level 200, only parsing).
Notation "'exec' m ; k" := (bind m (fun _ => k))
  (at level 20, m at level 100, k at level 200, only parsing).

(** [try { body } catch (error) { handler }] *)
Definition try_catch {A} (body : Async A) (handler : Thrown -> Async A) : Async A :=
  fun w =>
    match body w with
    | (w', Fulfilled a) => (w', Fulfilled a)
    | (w', Throw e) => handler e w'
    end.

(** [for (let x of xs) { body }], where [body] yields [Some r] when it
    executes [return r] and [None] when it runs to its end. *)
Fixpoint for_of {A R} (xs : list A) (body : A -> Async (option R)) : Async (option R) :=
  match xs with
  | [] => ret None
  | x :: rest =>
      await r <- body x;
      match r with
      | Some v => ret (Some v)
      | None => for_of rest body
      end
  end.

Definition console_error (line : string) : Async unit :=
  fun w => (mkWorld (files w) (playlists w) (blobs w) (console w ++ [line]) (trace w),
            Fulfilled tt).

(** [URL.createObjectURL(new Blob([contents]))]: registers the bytes and
    returns a URL that no earlier call returned. *)
Definition createObjectURL (contents : bytes) : Async Url :=
  fun w => (mkWorld (files w) (playlists w) (blobs w ++ [contents]) (console w) (trace w),
            Fulfilled (BlobUrl (length (blobs w)))).

(** What a URL shows when the page loads it. *)
Inductive Shown : Type :=
| Image (contents : bytes)
| Asset (path : string)
| Broken.

Definition shown (w : World) (u : Url) : Shown :=
  match u with
  | StaticUrl s => Asset s
  | BlobUrl h => match blobs w !! h with Some b => Image b | None => Broken end
  end.

(** ** The Tauri plugins

    Every call is recorded in the trace.  [fails] is the environment's say
    on which calls are refused (permissions, scope, a locked database); a
    refused call rejects and changes nothing.  A read or a removal of a
    file that is not there rejects as well. *)
Section Plugins.

Variable fails : Op -> bool.

Definition call {A} (op : Op) (run : World -> World * Completion A) : Async A :=
  fun w =>
    if fails op then (record op w, Throw (Rejected op)) else run (record op w).

Definition exists_ (path : string) : Async bool :=
  call (OpExists path)
       (fun w => (w, Fulfilled (bool_decide (is_Some (files w !! path))))).

Definition remove (path : string) : Async unit :=
  call (OpRemove path)
       (fun w => match files w !! path with
                 | Some _ => (set_files (delete path) w, Fulfilled tt)
                 | None => (w, Throw (Rejected (OpRemove path)))
                 end).

Definition readFile (path : string) : Async bytes :=
  call (OpReadFile path)
       (fun w => match files w !! path with
                 | Some data => (w, Fulfilled data)
                 | None => (w, Throw (Rejected (OpReadFile path)))
                 end).

Definition writeFile (path : string) (data : bytes) : Async unit :=
  call (OpWriteFile path)
       (fun w => (set_files (insert path data) w, Fulfilled tt)).

Definition update_cover_sql : string := "UPDATE playlists SET cover = ? WHERE id = ?".

(** [db.execute("UPDATE playlists SET cover = ? WHERE id = ?", [cover, id])]:
    a statement that matches no row succeeds and changes nothing. *)
Definition db_execute_update_cover (cover id : string) : Async unit :=
  call (OpExecute update_cover_sql [cover; id])
       (fun w => (set_playlists (alter (fun r => mkRow (row_name r) cover) id) w,
                  Fulfilled tt)).

(** ** Covers *)

(** The path template of a cover file. *)
Definition cover_path (id ext : string) : string :=
  "Vleer/Covers/" +:+ id +:+ "." +:+ ext.

(** The guard of [updatePlaylistCover], line 59. *)
Definition rejects_coverPath (coverPath : Js.value) : bool :=
  negb (Js.truthy coverPath)
  || negb (String.eqb (Js.typeof coverPath) "object")
  || negb (String.eqb (Js.typeof (Js.member coverPath "path")) "string").

Definition updatePlaylistCover (playlistId : string) (coverPath : Js.value) : Async unit :=
  if rejects_coverPath coverPath then
    exec console_error "Invalid coverPath:";
    throw (TypeError "coverPath must be an object with a path string")
  else
    let path := Js.string_of (Js.member coverPath "path") in
    let extension := Js.pop (Js.split "." path) in
    let newCoverName := playlistId +:+ "." +:+ Js.interpolate extension in
    let newCoverPath := "Vleer/Covers/" +:+ newCoverName in
    let existingExtensions := ["png"; "jpg"; "jpeg"; "gif"] in
    exec for_of (R := unit) existingExtensions (fun ext =>
      let oldCoverPath := "Vleer/Covers/" +:+ playlistId +:+ "." +:+ ext in
      await coverExists <- exists_ oldCoverPath;
      exec (if coverExists : bool then remove oldCoverPath else ret tt);
      ret None);
    try_catch
      (await data <- readFile path;
       exec writeFile newCoverPath data;
       db_execute_update_cover newCoverPath playlistId)
      (fun error =>
         exec console_error "Failed to update playlist cover:";
         throw (Error "Failed to update playlist cover due to path or permission issues.")).

Definition getCoverURLFromID (playlistId : string) : Async Url :=
  let extensions := ["png"; "jpg"; "jpeg"; "gif"] in
  await found <- for_of extensions (fun ext =>
    await coverExists <- exists_ ("Vleer/Covers/" +:+ playlistId +:+ "." +:+ ext);
    if coverExists : bool then
      await contents <- readFile ("Vleer/Covers/" +:+ playlistId +:+ "." +:+ ext);
      await url <- createObjectURL contents;
      ret (Some url)
    else ret None);
  match found with
  | Some url => ret url
  | None => ret (StaticUrl "/cover.png")
  end.

Definition getCoverFromID (songId : string) : Async Url :=
  await contents <- readFile ("Vleer/Covers/" +:+ songId +:+ ".png");
  createObjectURL contents.

Definition searchCoverByPlaylistId (playlistId : string) : Async Url :=
  let extensions := ["png"; "jpg"; "jpeg"; "gif"] in
  await found <- for_of extensions (fun ext =>
    await coverExists <- exists_ ("Vleer/Covers/" +:+ playlistId +:+ "." +:+ ext);
    if coverExists : bool then
      await contents <- readFile ("Vleer/Covers/" +:+ playlistId +:+ "." +:+ ext);
      await blob <- createObjectURL contents;
      ret (Some blob)
    else ret None);
  match found with
  | Some url => ret url
  | None => ret (StaticUrl "/cover.png")
  end.

End Plugins.

(** The environment in which no call is refused. *)
Definition reliable : Op -> bool := fun _ => false.

(** * The volume curve

    JavaScript numbers are IEEE 754 binary64 values, and so are Rocq's
    primitive floats: the arithmetic of [setVolume] is embedded operation by
    operation.  The volume level is an integer-valued number; its test
    against zero and its clamping are exact on integers and are written
    over [Z], and the clamped level, between 1 and 100, converts to a float
    without rounding.  [Math.log] and [Math.exp] are the engine's: ECMAScript
    fixes only a few of their values, so they are parameters here. *)
Module Volume.

Local Open Scope float_scope.

(** The number holding an integer level (exact below [2^53]). *)
Definition of_level (level : Z) : float := PrimFloat.of_uint63 (Uint63.of_Z level).

(** The literal [0.001] of the source: the binary64 value nearest to it. *)
Definition thousandth : float := 0x1.0624dd2f1a9fcp-10.

Section Curve.

Variables Math_log Math_exp : float -> float.

(** [setVolume(volume)]; the result is the value assigned to
    [audio.volume]. *)
Definition setVolume (volume : Z) : float :=
  if (volume =? 0)%Z then 0
  else
    let minVolume := 1%Z in
    let maxVolume := 100%Z in
    let volume := Z.max minVolume (Z.min maxVolume volume) in
    let minp := 0 in
    let maxp := 100 in
    let minv := Math_log thousandth in
    let maxv := Math_log 1 in
    let scale := (maxv - minv) / (maxp - minp) in
    Math_exp (minv + scale * (of_level volume - minp)).

End Curve.

(** The argument [setVolume] hands to [Math.exp], given the two logarithms. *)
Definition exponent (minv maxv : float) (level : Z) : float :=
  minv + (maxv - minv) / (100 - 0) * (of_level (Z.max 1 (Z.min 100 level)) - 0).

(** [Math.log(0.001)] correctly rounded: the binary64 value nearest to the
    natural logarithm of [thousandth], printed [-6.907755278982137]. *)
Definition ln_thousandth : float := -0x1.ba18a998fffa0p+2.

(** What is assumed of the engine's logarithm: ECMAScript has
    [Math.log(1)] be [+0], and the value at [0.001] is the correctly
    rounded one. *)
Definition log_as_rounded (Math_log : float -> float) : Prop :=
  Math_log 1 = 0 /\ Math_log thousandth = ln_thousandth.

(** The other faithful rounding of that logarithm, one unit in the last
    place below; the exact value lies between the two. *)
Definition ln_thousandth_below : float := -0x1.ba18a998fffa1p+2.

(** A logarithm that rounds faithfully, to either neighbour. *)
Definition log_faithful (Math_log : float -> float) : Prop :=
  Math_log 1 = 0
  /\ (Math_log thousandth = ln_thousandth \/ Math_log thousandth = ln_thousandth_below).

(** What is assumed of the engine's exponential for the order of gains: it
    is non-decreasing, and non-negative on every number that is not NaN. *)
Definition exp_monotone (Math_exp : float -> float) : Prop :=
  (forall x y, (x <=? y) = true -> (Math_exp x <=? Math_exp y) = true)
  /\ (forall x, (x =? x) = true -> (0 <=? Math_exp x) = true).

End Volume.

(** * The audio graph and the queue

    The Pinia stores [~/stores/music] and [~/stores/settings] are modules
    of their own; the plugin reads and writes their state and calls their
    actions.  The state is embedded as far as the plugin touches it, and
    the actions the plugin calls are parameters of the embedding. *)

Inductive ContextState : Type := suspended | running | closed.

Inductive Node : Type :=
| SourceNode
| AnalyserNode
| FilterNode (band : nat)
| DestinationNode.

(** An [AudioContext]: its state and the [connect] calls made on its
    nodes, oldest first. *)
Record AudioContext : Type := mkContext {
  state : ContextState;
  connections : list (Node * Node)
}.

Record Analyser : Type := mkAnalyser { fftSize : Z }.

Record BiquadFilter : Type := mkFilter { band : nat; gain : float }.

Record HTMLAudioElement : Type := mkAudio { paused : bool; volume : float }.

(** [musicStore.player] *)
Record Player : Type := mkPlayer {
  audio : HTMLAudioElement;
  currentSongId : string;
  audioContext : option AudioContext;
  sourceNode : option Node;
  analyser : option Analyser;
  eqFilters : list BiquadFilter
}.

Record MusicStore : Type := mkMusic {
  player : Player;
  queue : list string;
  currentQueueIndex : nat;
  songs : gset string
}.

(** An entry of the stored equalizer settings. *)
Record BandGain : Type := mkBandGain { bandIndex : nat; gainDb : float }.

Record SettingsStore : Type := mkSettings {
  stored_volume : Z;
  stored_eq : list BandGain
}.

(** Both stores, and a ghost counter of the [new AudioContext()]
    expressions evaluated so far. *)
Record App : Type := mkApp {
  music : MusicStore;
  settings : SettingsStore;
  contexts_created : nat
}.

(** What a caller hands to [musicStore.applyEqSettings]: the plugin passes
    the stored settings at one call site and the filter nodes at the
    other. *)
Inductive EqArgument : Type :=
| StoredSettings (eq : list BandGain)
| FilterHandles (filters : list BiquadFilter).

Definition with_player (f : Player -> Player) (m : MusicStore) : MusicStore :=
  mkMusic (f (player m)) (queue m) (currentQueueIndex m) (songs m).

Definition with_music (f : MusicStore -> MusicStore) (a : App) : App :=
  mkApp (f (music a)) (settings a) (contexts_created a).

Definition with_context (f : AudioContext -> AudioContext) (p : Player) : Player :=
  mkPlayer (audio p) (currentSongId p) (f <$> audioContext p)
           (sourceNode p) (analyser p) (eqFilters p).

(** [from.connect(to)] *)
Definition connect (from to : Node) (p : Player) : Player :=
  with_context (fun ctx => mkContext (state ctx) (connections ctx ++ [(from, to)])) p.

(** [audioContext.resume()] *)
Definition resume (p : Player) : Player :=
  with_context (fun ctx => mkContext running (connections ctx)) p.

Definition is_suspended (p : Player) : bool :=
  match audioContext p with
  | Some ctx => match state ctx with suspended => true | _ => false end
  | None => false
  end.

(** [audio.volume = v] *)
Definition set_volume (v : float) (p : Player) : Player :=
  mkPlayer (mkAudio (paused (audio p)) v) (currentSongId p) (audioContext p)
           (sourceNode p) (analyser p) (eqFilters p).

Section Stores.

(** The engine's [Math.log] and [Math.exp]. *)
Variables Math_log Math_exp : float -> float.

(** The state in which the host creates a context: [suspended] until a
    user gesture allows audio, [running] afterwards. *)
Variable host_state : ContextState.

(** The actions of [musicStore] that the plugin calls.  [setSong] yields
    no store when it rejects. *)
Variable createEqFilters : MusicStore -> list BiquadFilter.
Variable connectEqFilters : MusicStore -> MusicStore.
Variable applyEqSettings : EqArgument -> MusicStore -> MusicStore.
Variable store_setSong : string -> MusicStore -> option MusicStore.
Variable store_play : MusicStore -> MusicStore.
Variable store_skip : MusicStore -> MusicStore.

Definition getEq (s : SettingsStore) : list BandGain := stored_eq s.
Definition getVolume (s : SettingsStore) : Z := stored_volume s.

(** [music.setVolume(volume)], on the store's audio element. *)
Definition music_setVolume (level : Z) (a : App) : App :=
  with_music (with_player (set_volume (Volume.setVolume Math_log Math_exp level))) a.

(** [music.applyEqSettings()] *)
Definition music_applyEqSettings (a : App) : App :=
  let eqSettings := getEq (settings a) in
  with_music (applyEqSettings (StoredSettings eqSettings)) a.

(** [music.ensureAudioContextAndFilters()] *)
Definition ensureAudioContextAndFilters (a : App) : App :=
  match audioContext (player (music a)) with
  | None =>
      let m := music a in
      let m := with_player (fun p =>
                 mkPlayer (audio p) (currentSongId p) (Some (mkContext host_state []))
                          (sourceNode p) (analyser p) (eqFilters p)) m in
      let m := with_player (fun p =>
                 mkPlayer (audio p) (currentSongId p) (audioContext p)
                          (Some SourceNode) (analyser p) (eqFilters p)) m in
      let m := with_player (fun p =>
                 mkPlayer (audio p) (currentSongId p) (audioContext p)
                          (sourceNode p) (Some (mkAnalyser 2048)) (eqFilters p)) m in
      let m := with_player (connect SourceNode AnalyserNode) m in
      let m := with_player (connect AnalyserNode DestinationNode) m in
      let m := with_player (fun p =>
                 mkPlayer (audio p) (currentSongId p) (audioContext p)
                          (sourceNode p) (Some (mkAnalyser 256)) (eqFilters p)) m in
      let m := with_player (fun p =>
                 mkPlayer (audio p) (currentSongId p) (audioContext p)
                          (sourceNode p) (analyser p) (createEqFilters m)) m in
      let m := connectEqFilters m in
      let m := applyEqSettings (FilterHandles (eqFilters (player m))) m in
      let m := if is_suspended (player m) then with_player resume m else m in
      mkApp m (settings a) (S (contexts_created a))
  | Some ctx =>
      match state ctx with
      | suspended => with_music (with_player resume) a
      | _ => a
      end
  end.

(** [music.setSong(id)] *)
Definition music_setSong (id : string) (a : App) : option App :=
  match store_setSong id (music a) with
  | Some m => Some (mkApp m (settings a) (contexts_created a))
  | None => None
  end.

(** [ensureAudioContextAndFilters] as far as it runs when it is called
    without [await]: on a player without a graph, up to the [await] on
    [applyEqSettings]; on a player with a graph, the whole of it, since
    [resume()] is called before the [await] on its promise. *)
Definition ensure_until_await (a : App) : App :=
  match audioContext (player (music a)) with
  | None =>
      let m := music a in
      let m := with_player (fun p =>
                 mkPlayer (audio p) (currentSongId p) (Some (mkContext host_state []))
                          (sourceNode p) (analyser p) (eqFilters p)) m in
      let m := with_player (fun p =>
                 mkPlayer (audio p) (currentSongId p) (audioContext p)
                          (Some SourceNode) (analyser p) (eqFilters p)) m in
      let m := with_player (fun p =>
                 mkPlayer (audio p) (currentSongId p) (audioContext p)
                          (sourceNode p) (Some (mkAnalyser 2048)) (eqFilters p)) m in
      let m := with_player (connect SourceNode AnalyserNode) m in
      let m := with_player (connect AnalyserNode DestinationNode) m in
      let m := with_player (fun p =>
                 mkPlayer (audio p) (currentSongId p) (audioContext p)
                          (sourceNode p) (Some (mkAnalyser 256)) (eqFilters p)) m in
      let m := with_player (fun p =>
                 mkPlayer (audio p) (currentSongId p) (audioContext p)
                          (sourceNode p) (analyser p) (createEqFilters m)) m in
      let m := connectEqFilters m in
      let m := applyEqSettings (FilterHandles (eqFilters (player m))) m in
      mkApp m (settings a) (S (contexts_created a))
  | Some ctx =>
      match state ctx with
      | suspended => with_music (with_player resume) a
      | _ => a
      end
  end.

(** What is left of the first branch once the awaited promise has
    settled: lines 177 to 179. *)
Definition ensure_after_await (a : App) : App :=
  if is_suspended (player (music a)) then with_music (with_player resume) a else a.

(** [music.play()].  [ensureAudioContextAndFilters] is called without
    [await]: what follows its [await] on a player without a graph runs
    after [setVolume] and [musicStore.play()] have returned. *)
Definition music_play (a : App) : App :=
  let first_call :=
    match audioContext (player (music a)) with None => true | Some _ => false end in
  let a := ensure_until_await a in
  let a := music_setVolume (getVolume (settings a)) a in
  let a := with_music store_play a in
  if first_call then ensure_after_await a else a.

(** [music.skip()] *)
Definition music_skip (a : App) : App := with_music store_skip a.

(** The listener the plugin registers for the audio element's [ended]
    event. *)
Definition ended_listener (a : App) : App := music_skip a.

End Stores.

(** ** Transport on the audio element *)

(** [audio.play()] and [audio.pause()] on the element, as far as the
    plugin reads the outcome: the [paused] attribute. *)
Definition audio_play (p : Player) : Player :=
  mkPlayer (mkAudio false (volume (audio p))) (currentSongId p) (audioContext p)
           (sourceNode p) (analyser p) (eqFilters p).

Definition audio_pause (p : Player) : Player :=
  mkPlayer (mkAudio true (volume (audio p))) (currentSongId p) (audioContext p)
           (sourceNode p) (analyser p) (eqFilters p).

Section Transport.

Variables Math_log Math_exp : float -> float.

(** [music.pause()]; [musicStore.getAudio()] hands out the element
    [musicStore.player.audio]. *)
Definition music_pause (a : App) : App :=
  with_music (with_player audio_pause) a.

(** [music.playPause()] *)
Definition music_playPause (a : App) : App :=
  let a := music_setVolume Math_log Math_exp (getVolume (settings a)) a in
  if paused (audio (player (music a)))
  then with_music (with_player audio_play) a
  else with_music (with_player audio_pause) a.

End Transport.

(** ** The store actions as the specification describes them *)

(** Modelled from the spec: [musicStore.createEqFilters] is not in the
    sources.  The specification has one filter per supported band, ten
    bands being its example; a new filter has gain 0. *)
Definition spec_createEqFilters (m : MusicStore) : list BiquadFilter :=
  map (fun i => mkFilter i 0%float) (seq 0 10).

(** The connections of the chain source, each filter in band order,
    analyser, output. *)
Fixpoint chain (from : Node) (filters : list BiquadFilter) : list (Node * Node) :=
  match filters with
  | [] => [(from, AnalyserNode); (AnalyserNode, DestinationNode)]
  | f :: rest => (from, FilterNode (band f)) :: chain (FilterNode (band f)) rest
  end.

(** Modelled from the spec: [musicStore.connectEqFilters] is not in the
    sources.  The specification connects the nodes in the fixed order
    source, each filter in band order, analyser, output. *)
Definition spec_connectEqFilters (m : MusicStore) : MusicStore :=
  with_player (fun p =>
    fold_left (fun p edge => connect edge.1 edge.2 p) (chain SourceNode (eqFilters p)) p) m.

Definition write_gain (filters : list BiquadFilter) (g : BandGain) : list BiquadFilter :=
  map (fun f => if Nat.eqb (band f) (bandIndex g) then mkFilter (band f) (gainDb g) else f)
      filters.

(** Modelled from the spec: [musicStore.applyEqSettings] is not in the
    sources.  The specification writes every band's gain of the settings it
    is given to the corresponding filter.  Its clause for settings given
    before the graph exists, which are kept for the next construction,
    needs state of the store that the plugin never touches and is left
    out: with no filters there is nothing to write.  The specification has
    no case for an argument that is not settings; for the filter handles
    that line 176 passes, nothing is written here. *)
Definition spec_applyEqSettings (arg : EqArgument) (m : MusicStore) : MusicStore :=
  match arg with
  | StoredSettings eq =>
      with_player (fun p =>
        mkPlayer (audio p) (currentSongId p) (audioContext p) (sourceNode p) (analyser p)
                 (fold_left write_gain eq (eqFilters p))) m
  | FilterHandles _ => m
  end.

(** Modelled from the spec: [musicStore.play] is not in the sources.  The
    specification starts audio rendering. *)
Definition spec_play (m : MusicStore) : MusicStore :=
  with_player (fun p =>
    mkPlayer (mkAudio false (volume (audio p))) (currentSongId p) (audioContext p)
             (sourceNode p) (analyser p) (eqFilters p)) m.

(** * Properties of the cover functions *)

(** ** The guard of [updatePlaylistCover] *)

(** A well-formed cover descriptor: an object with a string-valued [path]. *)
Definition well_formed_descriptor (v : Js.value) : Prop :=
  exists props s, v = Js.object props /\ Js.own props "path" = Js.str s.

Lemma typeof_string_inv v :
  String.eqb (Js.typeof v) "string" = true -> exists s, v = Js.str s.
Proof. destruct v; simpl; try discriminate. eauto. Qed.

Lemma rejects_coverPath_iff v :
  rejects_coverPath v = false <-> well_formed_descriptor v.
Proof.
  unfold rejects_coverPath, well_formed_descriptor. split.
  - intros H. apply orb_false_elim in H as [H Hpath].
    apply orb_false_elim in H as [_ Hobj].
    destruct v; simpl in Hobj; try discriminate.
    apply negb_false_iff, typeof_string_inv in Hpath as [s Hs].
    exists props, s. auto.
  - intros (props & s & -> & Hs). simpl. rewrite Hs. reflexivity.
Qed.

Lemma rejects_coverPath_true v :
  ~ well_formed_descriptor v -> rejects_coverPath v = true.
Proof.
  intros H. destruct (rejects_coverPath v) eqn:E; [reflexivity|].
  apply rejects_coverPath_iff in E. contradiction.
Qed.

(** C9: a cover descriptor that is not an object with a string-valued
    [path] makes [updatePlaylistCover] reject with the [TypeError] of its
    guard; no file-system or database call has been made (the trace is the
    one before the call), and the files and the playlists table are the
    ones before the call. *)
Theorem updatePlaylistCover_rejects_malformed
    (fails : Op -> bool) (playlistId : string) (coverPath : Js.value) (w : World) :
  ~ well_formed_descriptor coverPath ->
  exists w',
    updatePlaylistCover fails playlistId coverPath w
      = (w', Throw (TypeError "coverPath must be an object with a path string"))
    /\ trace w' = trace w
    /\ files w' = files w
    /\ playlists w' = playlists w.
Proof.
  intros Hbad. unfold updatePlaylistCover.
  rewrite (rejects_coverPath_true _ Hbad).
  eexists. split; [reflexivity|]. simpl. auto.
Qed.

Definition sample_world : World :=
  mkWorld (<["Vleer/Covers/p1.png" := [Byte.x89; Byte.x50]]>
             (<["Pictures/new.jpg" := [Byte.xff; Byte.xd8]]> ∅))
          (<["p1" := mkRow "Mix" "Vleer/Covers/p1.png"]> ∅)
          [] [] [].

Lemma updatePlaylistCover_rejects_malformed_witness :
  exists w',
    updatePlaylistCover reliable "p1" (Js.str "Pictures/new.jpg") sample_world
      = (w', Throw (TypeError "coverPath must be an object with a path string"))
    /\ trace w' = trace sample_world
    /\ files w' = files sample_world
    /\ playlists w' = playlists sample_world.
Proof.
  apply (updatePlaylistCover_rejects_malformed reliable "p1"
           (Js.str "Pictures/new.jpg") sample_world).
  intros (props & s & H & _). discriminate H.
Defined.

(** ** [getCoverFromID] *)

(** C10: [getCoverFromID] makes one call, a read of
    [Vleer/Covers/<songId>.png]; when that file is not there the call
    rejects with the read's own error, whatever other cover files exist,
    and nothing is returned in its place. *)
Theorem getCoverFromID_png_only
    (fails : Op -> bool) (songId : string) (w : World) :
  files w !! cover_path songId "png" = None ->
  getCoverFromID fails songId w
    = (record (OpReadFile (cover_path songId "png")) w,
       Throw (Rejected (OpReadFile (cover_path songId "png")))).
Proof.
  intros Hnone.
  change (cover_path songId "png") with ("Vleer/Covers/" +:+ songId +:+ ".png") in *.
  unfold getCoverFromID, bind, readFile, call.
  destruct (fails _); [reflexivity|].
  simpl. rewrite Hnone. reflexivity.
Qed.

Definition jpg_only_world : World :=
  mkWorld (<["Vleer/Covers/s7.jpg" := [Byte.xff; Byte.xd8]]> ∅) ∅ [] [] [].

Lemma getCoverFromID_png_only_witness :
  getCoverFromID reliable "s7" jpg_only_world
    = (record (OpReadFile (cover_path "s7" "png")) jpg_only_world,
       Throw (Rejected (OpReadFile (cover_path "s7" "png")))).
Proof.
  apply (getCoverFromID_png_only reliable "s7" jpg_only_world).
  reflexivity.
Defined.

(** ** Cover resolution *)

(** The resolution as the specification words it: the first extension of
    the probe order whose file exists wins, and the placeholder stands in
    when none does. *)
Definition has_cover (fs : gmap string bytes) (id ext : string) : bool :=
  bool_decide (is_Some (fs !! cover_path id ext)).

Fixpoint resolve_in (fs : gmap string bytes) (id : string) (exts : list string) : Shown :=
  match exts with
  | [] => Asset "/cover.png"
  | ext :: rest =>
      match fs !! cover_path id ext with
      | Some contents => Image contents
      | None => resolve_in fs id rest
      end
  end.

Definition resolve (fs : gmap string bytes) (id : string) : Shown :=
  resolve_in fs id ["png"; "jpg"; "jpeg"; "gif"].

(** The calls a resolution is expected to make: an existence probe per
    extension, in order, up to the first hit, and one read of the hit. *)
Fixpoint probes_in (fs : gmap string bytes) (id : string) (exts : list string) : list Op :=
  match exts with
  | [] => []
  | ext :: rest =>
      OpExists (cover_path id ext)
        :: (if has_cover fs id ext then [OpReadFile (cover_path id ext)]
            else probes_in fs id rest)
  end.

Definition probes (fs : gmap string bytes) (id : string) : list Op :=
  probes_in fs id ["png"; "jpg"; "jpeg"; "gif"].

(** The loop body shared by [getCoverURLFromID] and
    [searchCoverByPlaylistId]. *)
Definition probe_body (fails : Op -> bool) (id : string) : string -> Async (option Url) :=
  fun ext =>
    await coverExists <- exists_ fails (cover_path id ext);
    if coverExists : bool then
      await contents <- readFile fails (cover_path id ext);
      await url <- createObjectURL contents;
      ret (Some url)
    else ret None.

Lemma getCoverURLFromID_unfold fails id :
  getCoverURLFromID fails id
  = (await found <- for_of ["png"; "jpg"; "jpeg"; "gif"] (probe_body fails id);
     match found with
     | Some url => ret url
     | None => ret (StaticUrl "/cover.png")
     end).
Proof. reflexivity. Qed.

Lemma searchCoverByPlaylistId_unfold fails id :
  searchCoverByPlaylistId fails id
  = (await found <- for_of ["png"; "jpg"; "jpeg"; "gif"] (probe_body fails id);
     match found with
     | Some url => ret url
     | None => ret (StaticUrl "/cover.png")
     end).
Proof. reflexivity. Qed.

Lemma shown_fresh_blob w contents :
  shown (mkWorld (files w) (playlists w) (blobs w ++ [contents]) (console w) (trace w))
        (BlobUrl (length (blobs w))) = Image contents.
Proof.
  simpl. rewrite lookup_app_r by lia. rewrite Nat.sub_diag. reflexivity.
Qed.

(** What the probing loop does on a reliable file system. *)
Lemma probe_loop_reliable id exts w :
  exists w' found,
    for_of exts (probe_body reliable id) w = (w', Fulfilled found)
    /\ files w' = files w
    /\ playlists w' = playlists w
    /\ console w' = console w
    /\ trace w' = (trace w ++ probes_in (files w) id exts)%list
    /\ match found with
       | Some url => shown w' url = resolve_in (files w) id exts
       | None => resolve_in (files w) id exts = Asset "/cover.png"
                 /\ blobs w' = blobs w
       end.
Proof.
  revert w. induction exts as [|ext rest IH]; intros w.
  - exists w, None. simpl. rewrite app_nil_r. repeat split; reflexivity.
  - simpl. unfold bind at 1. unfold probe_body at 1, bind, exists_, readFile, call, reliable.
    unfold has_cover. simpl.
    destruct (files w !! cover_path id ext) as [contents|] eqn:Hfile.
    + rewrite bool_decide_eq_true_2 by eauto. simpl. rewrite Hfile. simpl.
      eexists _, (Some _). split; [reflexivity|]. simpl.
      repeat split; try reflexivity.
      * rewrite <- app_assoc. reflexivity.
      * rewrite lookup_app_r by lia. rewrite Nat.sub_diag. reflexivity.
    + rewrite bool_decide_eq_false_2 by (intros [? ?]; discriminate). simpl.
      destruct (IH (record (OpExists (cover_path id ext)) w))
        as (w' & found & Hrun & Hf & Hp & Hc & Ht & Hres).
      exists w', found. split; [exact Hrun|].
      simpl in *. repeat split; try assumption.
      rewrite Ht, <- app_assoc. reflexivity.
Qed.

(** A function resolves covers when, on every disk, it fulfils with a URL
    that shows what [resolve] prescribes, having made exactly the calls of
    [probes] and changed no file; and when a second call on the world the
    first one left shows the same. *)
Definition resolves_covers (f : string -> Async Url) : Prop :=
  forall (id : string) (w : World),
    exists w1 url1,
      f id w = (w1, Fulfilled url1)
      /\ shown w1 url1 = resolve (files w) id
      /\ files w1 = files w
      /\ trace w1 = (trace w ++ probes (files w) id)%list
      /\ exists w2 url2,
           f id w1 = (w2, Fulfilled url2)
           /\ shown w2 url2 = shown w1 url1.

Lemma probe_then_fallback_once id w :
  exists w1 url1,
    bind (for_of ["png"; "jpg"; "jpeg"; "gif"] (probe_body reliable id))
         (fun found => match found with
                       | Some url => ret url
                       | None => ret (StaticUrl "/cover.png")
                       end) w = (w1, Fulfilled url1)
    /\ shown w1 url1 = resolve (files w) id
    /\ files w1 = files w
    /\ trace w1 = (trace w ++ probes (files w) id)%list.
Proof.
  destruct (probe_loop_reliable id ["png"; "jpg"; "jpeg"; "gif"] w)
    as (w' & found & Hrun & Hf & _ & _ & Ht & Hres).
  unfold bind. rewrite Hrun.
  destruct found as [url|].
  - exists w', url. auto.
  - exists w', (StaticUrl "/cover.png"). destruct Hres as [Hres _].
    unfold resolve. rewrite Hres. auto.
Qed.

Lemma probe_then_fallback_resolves :
  resolves_covers (fun id =>
    bind (for_of ["png"; "jpg"; "jpeg"; "gif"] (probe_body reliable id))
         (fun found => match found with
                       | Some url => ret url
                       | None => ret (StaticUrl "/cover.png")
                       end)).
Proof.
  intros id w.
  destruct (probe_then_fallback_once id w) as (w1 & url1 & Hrun1 & Hs1 & Hf1 & Ht1).
  destruct (probe_then_fallback_once id w1) as (w2 & url2 & Hrun2 & Hs2 & _ & _).
  exists w1, url1. repeat split; try assumption.
  exists w2, url2. split; [assumption|].
  rewrite Hs2, Hs1, Hf1. reflexivity.
Qed.

(** Stale leftovers: with a jpg and a gif cover on disk the jpg wins, and
    the calls stop at its read. *)
Definition leftovers_world : World :=
  mkWorld (<["Vleer/Covers/p1.gif" := [Byte.x47; Byte.x49]]>
             (<["Vleer/Covers/p1.jpg" := [Byte.xff; Byte.xd8]]> ∅))
          ∅ [] [] [].

Example resolve_prefers_jpg_over_gif :
  resolve (files leftovers_world) "p1" = Image [Byte.xff; Byte.xd8]
  /\ probes (files leftovers_world) "p1"
     = [OpExists "Vleer/Covers/p1.png"; OpExists "Vleer/Covers/p1.jpg";
        OpReadFile "Vleer/Covers/p1.jpg"]
  /\ getCoverURLFromID reliable "p1" leftovers_world
     = (mkWorld (files leftovers_world) ∅ [[Byte.xff; Byte.xd8]] []
                [OpExists "Vleer/Covers/p1.png"; OpExists "Vleer/Covers/p1.jpg";
                 OpReadFile "Vleer/Covers/p1.jpg"],
        Fulfilled (BlobUrl 0)).
Proof. repeat split; vm_compute; reflexivity. Qed.

(** C3: on a reliable file system [getCoverURLFromID] and
    [searchCoverByPlaylistId] probe [Vleer/Covers/<id>.<ext>] for png, jpg,
    jpeg, gif in that order, stop at the first file that exists and return
    a URL showing its contents, and return ["/cover.png"] when none exists;
    a repeated call on the same disk shows the same. *)
Theorem cover_resolution_probe_order :
  resolves_covers (getCoverURLFromID reliable)
  /\ resolves_covers (searchCoverByPlaylistId reliable).
Proof.
  split; exact probe_then_fallback_resolves.
Qed.

(** ** Replacing a playlist cover *)

(** The disk once the covers of [id] at the given extensions are gone. *)
Fixpoint purge_in (id : string) (exts : list string) (fs : gmap string bytes)
    : gmap string bytes :=
  match exts with
  | [] => fs
  | ext :: rest => purge_in id rest (delete (cover_path id ext) fs)
  end.

Definition purge (id : string) (fs : gmap string bytes) : gmap string bytes :=
  purge_in id ["png"; "jpg"; "jpeg"; "gif"] fs.

(** The body of the removal loop of [updatePlaylistCover]. *)
Definition remove_body (fails : Op -> bool) (id : string) : string -> Async (option unit) :=
  fun ext =>
    await coverExists <- exists_ fails (cover_path id ext);
    exec (if coverExists : bool then remove fails (cover_path id ext) else ret tt);
    ret None.

(** Where [updatePlaylistCover] reads the new cover from and where it
    writes it. *)
Definition source_path (coverPath : Js.value) : string :=
  Js.string_of (Js.member coverPath "path").

Definition new_cover_path (id : string) (coverPath : Js.value) : string :=
  "Vleer/Covers/" +:+
    (id +:+ "." +:+ Js.interpolate (Js.pop (Js.split "." (source_path coverPath)))).

Lemma updatePlaylistCover_unfold fails id coverPath :
  rejects_coverPath coverPath = false ->
  updatePlaylistCover fails id coverPath
  = (exec for_of ["png"; "jpg"; "jpeg"; "gif"] (remove_body fails id);
     try_catch
       (await data <- readFile fails (source_path coverPath);
        exec writeFile fails (new_cover_path id coverPath) data;
        db_execute_update_cover fails (new_cover_path id coverPath) id)
       (fun error =>
          exec console_error "Failed to update playlist cover:";
          throw (Error "Failed to update playlist cover due to path or permission issues."))).
Proof. intros H. unfold updatePlaylistCover. rewrite H. reflexivity. Qed.

(** The removal loop either completes, and then every probed cover is
    gone, or rejects with the error of the refused call; the table is not
    touched. *)
Lemma remove_loop fails id exts w :
  match for_of exts (remove_body fails id) w with
  | (w', Fulfilled found) =>
      found = None
      /\ files w' = purge_in id exts (files w)
      /\ playlists w' = playlists w
  | (w', Throw e) => (exists op, e = Rejected op) /\ playlists w' = playlists w
  end.
Proof.
  revert w. induction exts as [|ext rest IH]; intros w.
  - simpl. auto.
  - simpl. unfold bind at 1. unfold remove_body at 1, bind, exists_, remove, call.
    destruct (fails (OpExists (cover_path id ext))); [simpl; eauto|].
    simpl.
    destruct (files w !! cover_path id ext) as [old|] eqn:Hold.
    + rewrite bool_decide_eq_true_2 by eauto.
      destruct (fails (OpRemove (cover_path id ext))); [simpl; eauto|].
      simpl. rewrite Hold. simpl.
      specialize (IH (set_files (delete (cover_path id ext))
                        (record (OpRemove (cover_path id ext))
                           (record (OpExists (cover_path id ext)) w)))).
      destruct (for_of rest _ _) as [w' [found|e]]; simpl in IH; exact IH.
    + rewrite bool_decide_eq_false_2 by (intros [? ?]; discriminate).
      simpl.
      specialize (IH (record (OpExists (cover_path id ext)) w)).
      rewrite (delete_id _ _ Hold).
      destruct (for_of rest _ _) as [w' [found|e]]; simpl in IH; exact IH.
Qed.

(** The three ways a call with a well-formed descriptor can end. *)
Lemma updatePlaylistCover_outcome fails id coverPath w :
  rejects_coverPath coverPath = false ->
  match updatePlaylistCover fails id coverPath w with
  | (w', Fulfilled _) =>
      exists data,
        purge id (files w) !! source_path coverPath = Some data
        /\ files w' = <[new_cover_path id coverPath := data]> (purge id (files w))
        /\ playlists w'
           = alter (fun r => mkRow (row_name r) (new_cover_path id coverPath)) id
                   (playlists w)
  | (w', Throw (Error _)) =>
      playlists w' = playlists w
      /\ (files w' = purge id (files w)
          \/ exists data,
               purge id (files w) !! source_path coverPath = Some data
               /\ files w' = <[new_cover_path id coverPath := data]> (purge id (files w)))
  | (w', Throw (Rejected _)) => playlists w' = playlists w
  | (w', Throw (TypeError _)) => False
  end.
Proof.
  intros Hok. rewrite (updatePlaylistCover_unfold _ _ _ Hok).
  unfold bind at 1.
  pose proof (remove_loop fails id ["png"; "jpg"; "jpeg"; "gif"] w) as Hloop.
  destruct (for_of _ _ w) as [w1 [found|e]].
  2:{ destruct Hloop as [[op ->] Hp]. exact Hp. }
  destruct Hloop as (_ & Hf & Hp). fold (purge id (files w)) in Hf.
  unfold try_catch, bind, readFile, writeFile, db_execute_update_cover, call,
    console_error, throw.
  destruct (fails (OpReadFile _)); simpl; [rewrite Hf; auto|].
  destruct (files w1 !! source_path coverPath) as [data|] eqn:Hsrc;
    simpl; [|rewrite Hf; auto].
  rewrite Hf in Hsrc.
  destruct (fails (OpWriteFile _)); simpl; [rewrite Hf; auto|].
  destruct (fails (OpExecute _ _)); simpl; rewrite Hf, Hp; eauto.
Qed.

Lemma lookup_purge_in_cover id exts fs ext :
  ext ∈ exts -> purge_in id exts fs !! cover_path id ext = None.
Proof.
  revert fs. induction exts as [|e rest IH]; intros fs Hin.
  - inversion Hin.
  - simpl. destruct (decide (ext ∈ rest)) as [Hrest|Hrest]; [auto|].
    assert (ext = e) as -> by (inversion Hin; subst; tauto).
    clear IH Hin Hrest. revert fs. induction rest as [|e' rest IH]; intros fs; simpl.
    + apply lookup_delete_eq.
    + destruct (decide (cover_path id e' = cover_path id e)) as [E|E].
      * rewrite E. rewrite delete_delete_eq. apply IH.
      * rewrite delete_delete. apply IH.
Qed.

Lemma lookup_purge_in_other id exts fs p :
  (forall ext, ext ∈ exts -> p <> cover_path id ext) ->
  purge_in id exts fs !! p = fs !! p.
Proof.
  revert fs. induction exts as [|e rest IH]; intros fs Hne; simpl; [reflexivity|].
  rewrite IH by (intros ext Hin; apply Hne; right; exact Hin).
  apply lookup_delete_ne. intros E. apply (Hne e); [left|]; auto.
Qed.

Lemma cover_path_inj id e1 e2 : cover_path id e1 = cover_path id e2 -> e1 = e2.
Proof.
  unfold cover_path. intros H.
  repeat (apply (inj (String.app _)) in H). exact H.
Qed.

(** The covers of [id] at the known extensions that are on the disk. *)
Definition known_covers (fs : gmap string bytes) (id : string) : list string :=
  List.filter (has_cover fs id) ["png"; "jpg"; "jpeg"; "gif"].

Lemma has_cover_after_update id fs target data ext :
  ext ∈ ["png"; "jpg"; "jpeg"; "gif"] ->
  has_cover (<[target := data]> (purge id fs)) id ext = true ->
  cover_path id ext = target.
Proof.
  intros Hin Hhas. unfold has_cover in Hhas. apply bool_decide_eq_true_1 in Hhas.
  destruct (decide (cover_path id ext = target)) as [E|E]; [exact E|].
  rewrite lookup_insert_ne in Hhas by congruence.
  unfold purge in Hhas. rewrite lookup_purge_in_cover in Hhas by exact Hin.
  destruct Hhas as [? ?]. discriminate.
Qed.

Lemma known_covers_after_update id fs target data :
  length (known_covers (<[target := data]> (purge id fs)) id) <= 1.
Proof.
  unfold known_covers.
  pose proof (has_cover_after_update id fs target data) as H.
  assert (forall e1 e2, e1 ∈ ["png"; "jpg"; "jpeg"; "gif"] ->
                        e2 ∈ ["png"; "jpg"; "jpeg"; "gif"] ->
            has_cover (<[target := data]> (purge id fs)) id e1 = true ->
            has_cover (<[target := data]> (purge id fs)) id e2 = true -> e1 = e2) as Huniq.
  { intros e1 e2 H1 H2 T1 T2. apply (cover_path_inj id).
    rewrite (H e1 H1 T1), (H e2 H2 T2). reflexivity. }
  clear H. simpl.
  destruct (has_cover _ id "png") eqn:Epng;
  destruct (has_cover _ id "jpg") eqn:Ejpg;
  destruct (has_cover _ id "jpeg") eqn:Ejpeg;
  destruct (has_cover _ id "gif") eqn:Egif; simpl; try lia; exfalso;
  repeat match goal with
  | A : has_cover _ id ?a = true, B : has_cover _ id ?b = true |- _ =>
      assert (a = b) by (apply Huniq; [set_solver | set_solver | exact A | exact B]);
      discriminate
  end.
Qed.

(** *** Failure of the read/write/persist phase *)

Definition descriptor (path : string) : Js.value := Js.object [("path", Js.str path)].

(** The all-or-nothing reading of a failed update: the world is as it was
    before the call, or the update is in place -- the new cover is on disk,
    no other cover of the playlist at a known extension is, and the row
    points to the new cover. *)
Definition left_intact (w w' : World) : Prop :=
  files w' = files w /\ playlists w' = playlists w.

Definition fully_committed (id : string) (coverPath : Js.value) (w' : World) : Prop :=
  is_Some (files w' !! new_cover_path id coverPath)
  /\ (forall ext, ext ∈ ["png"; "jpg"; "jpeg"; "gif"] ->
        cover_path id ext <> new_cover_path id coverPath ->
        files w' !! cover_path id ext = None)
  /\ row_cover <$> playlists w' !! id = Some (new_cover_path id coverPath).

Definition all_or_nothing (fails : Op -> bool) (id : string) (coverPath : Js.value)
    (w : World) : Prop :=
  forall w' msg,
    updatePlaylistCover fails id coverPath w = (w', Throw (Error msg)) ->
    left_intact w w' \/ fully_committed id coverPath w'.

(** Counterexample to C1 as stated: playlist [p1] has a png cover and the
    user picks a file that cannot be read.  The call fails in its
    read/write/persist phase, yet the old cover has been removed and no new
    one is in place. *)
Lemma updatePlaylistCover_not_all_or_nothing :
  ~ all_or_nothing reliable "p1" (descriptor "Pictures/gone.jpg") sample_world.
Proof.
  intros H.
  assert (updatePlaylistCover reliable "p1" (descriptor "Pictures/gone.jpg") sample_world
          = (fst (updatePlaylistCover reliable "p1" (descriptor "Pictures/gone.jpg")
                    sample_world),
             Throw (Error "Failed to update playlist cover due to path or permission issues.")))
    as Hrun by (vm_compute; reflexivity).
  destruct (H _ _ Hrun) as [[Hfiles _] | [Hnew _]].
  - apply (f_equal (fun m => m !! "Vleer/Covers/p1.png")) in Hfiles.
    vm_compute in Hfiles. discriminate Hfiles.
  - destruct Hnew as [data Hdata]. vm_compute in Hdata. discriminate Hdata.
Qed.

(** C1, amended: when [updatePlaylistCover] fails in its read/write/persist
    phase, the persisted cover path is the one before the call, and the
    covers of the playlist at the known extensions have been removed and
    are not restored: the disk is the purged one, with the new cover added
    when it was the database update that failed. *)
Theorem updatePlaylistCover_failure_keeps_purge
    (fails : Op -> bool) (id : string) (coverPath : Js.value) (w w' : World)
    (msg : string) :
  well_formed_descriptor coverPath ->
  updatePlaylistCover fails id coverPath w = (w', Throw (Error msg)) ->
  playlists w' = playlists w
  /\ (forall ext, ext ∈ ["png"; "jpg"; "jpeg"; "gif"] ->
        cover_path id ext <> new_cover_path id coverPath ->
        files w' !! cover_path id ext = None)
  /\ (files w' = purge id (files w)
      \/ exists data,
           purge id (files w) !! source_path coverPath = Some data
           /\ files w' = <[new_cover_path id coverPath := data]> (purge id (files w))).
Proof.
  intros Hwf Hrun. apply rejects_coverPath_iff in Hwf.
  pose proof (updatePlaylistCover_outcome fails id coverPath w Hwf) as Hout.
  rewrite Hrun in Hout. destruct Hout as [Hp Hfs].
  split; [exact Hp|]. split; [|exact Hfs].
  intros ext Hin Hne.
  destruct Hfs as [-> | (data & _ & ->)].
  - apply lookup_purge_in_cover, Hin.
  - rewrite lookup_insert_ne by congruence. apply lookup_purge_in_cover, Hin.
Qed.

Definition failed_update_world : World :=
  fst (updatePlaylistCover reliable "p1" (descriptor "Pictures/gone.jpg") sample_world).

Lemma updatePlaylistCover_failure_keeps_purge_witness :
  playlists failed_update_world = playlists sample_world
  /\ (forall ext, ext ∈ ["png"; "jpg"; "jpeg"; "gif"] ->
        cover_path "p1" ext <> new_cover_path "p1" (descriptor "Pictures/gone.jpg") ->
        files failed_update_world !! cover_path "p1" ext = None)
  /\ (files failed_update_world = purge "p1" (files sample_world)
      \/ exists data,
           purge "p1" (files sample_world) !! source_path (descriptor "Pictures/gone.jpg")
             = Some data
           /\ files failed_update_world
              = <[new_cover_path "p1" (descriptor "Pictures/gone.jpg") := data]>
                  (purge "p1" (files sample_world))).
Proof.
  apply (updatePlaylistCover_failure_keeps_purge reliable "p1"
           (descriptor "Pictures/gone.jpg") sample_world failed_update_world
           "Failed to update playlist cover due to path or permission issues.").
  - exists [("path", Js.str "Pictures/gone.jpg")], "Pictures/gone.jpg".
    split; reflexivity.
  - vm_compute. reflexivity.
Defined.

(** *** Sequences of completed updates *)

(** The calls of a sequence, each in its own environment; [Some] world
    when every call of the sequence fulfilled. *)
Fixpoint update_all (id : string) (calls : list ((Op -> bool) * Js.value)) (w : World)
    : option World :=
  match calls with
  | [] => Some w
  | (fails, coverPath) :: rest =>
      match updatePlaylistCover fails id coverPath w with
      | (w', Fulfilled _) => update_all id rest w'
      | (_, Throw _) => None
      end
  end.

(** The files named [Vleer/Covers/<id>.*]. *)
Definition is_cover_of (id path : string) : bool :=
  String.prefix ("Vleer/Covers/" +:+ id +:+ ".") path.

Definition cover_files (id : string) (fs : gmap string bytes) : gmap string bytes :=
  filter (fun entry => is_cover_of id entry.1 = true) fs.

Definition picker_world : World :=
  mkWorld (<["Pictures/a.webp" := [Byte.x52; Byte.x49]]>
             (<["Pictures/b.png" := [Byte.x89; Byte.x50]]> ∅))
          (<["p1" := mkRow "Mix" ""]> ∅)
          [] [] [].

(** Counterexample to C2 as stated: a webp cover followed by a png cover.
    The second update probes the four known extensions only, so the webp
    file stays and two files match [p1.*]. *)
Lemma two_covers_after_two_updates :
  exists w',
    update_all "p1" [(reliable, descriptor "Pictures/a.webp");
                     (reliable, descriptor "Pictures/b.png")] picker_world = Some w'
    /\ size (cover_files "p1" (files w')) = 2.
Proof.
  eexists. split; [vm_compute; reflexivity|]. vm_compute. reflexivity.
Qed.

Lemma update_all_last id calls w w' :
  calls <> [] ->
  update_all id calls w = Some w' ->
  exists fails coverPath w0,
    updatePlaylistCover fails id coverPath w0 = (w', Fulfilled tt).
Proof.
  revert w. induction calls as [|[fails coverPath] rest IH]; intros w Hne Hrun;
    [congruence|].
  simpl in Hrun.
  destruct (updatePlaylistCover fails id coverPath w) as [w1 [[]|e]] eqn:Hcall;
    [|discriminate].
  destruct rest as [|c rest'].
  - simpl in Hrun. injection Hrun as <-. eauto.
  - apply (IH w1); [discriminate|exact Hrun].
Qed.

(** A completed update removes no file other than the covers of the
    playlist at the four known extensions. *)
Lemma update_keeps_other_files fails id coverPath w w' p :
  updatePlaylistCover fails id coverPath w = (w', Fulfilled tt) ->
  (forall ext, ext ∈ ["png"; "jpg"; "jpeg"; "gif"] -> p <> cover_path id ext) ->
  is_Some (files w !! p) -> is_Some (files w' !! p).
Proof.
  intros Hcall Hother Hp.
  destruct (rejects_coverPath coverPath) eqn:Hguard.
  - unfold updatePlaylistCover in Hcall. rewrite Hguard in Hcall. discriminate Hcall.
  - pose proof (updatePlaylistCover_outcome fails id coverPath w Hguard) as Hout.
    rewrite Hcall in Hout. destruct Hout as (data & _ & -> & _).
    destruct (decide (new_cover_path id coverPath = p)) as [->|Hne].
    + rewrite lookup_insert_eq. eauto.
    + rewrite lookup_insert_ne by exact Hne.
      unfold purge. rewrite lookup_purge_in_other by exact Hother. exact Hp.
Qed.

Lemma update_all_keeps_other_files id calls w w' p :
  update_all id calls w = Some w' ->
  (forall ext, ext ∈ ["png"; "jpg"; "jpeg"; "gif"] -> p <> cover_path id ext) ->
  is_Some (files w !! p) -> is_Some (files w' !! p).
Proof.
  revert w. induction calls as [|[fails coverPath] rest IH]; intros w Hrun Hother Hp.
  - simpl in Hrun. injection Hrun as <-. exact Hp.
  - simpl in Hrun.
    destruct (updatePlaylistCover fails id coverPath w) as [w1 [[]|e]] eqn:Hcall;
      [|discriminate].
    apply (IH w1 Hrun Hother).
    apply (update_keeps_other_files fails id coverPath w w1 p Hcall Hother Hp).
Qed.

(** C2, amended: after a non-empty sequence of completed
    [updatePlaylistCover] calls for one playlist, at most one of the files
    [Vleer/Covers/<id>.png], [.jpg], [.jpeg], [.gif] exists; every other
    file that was on the disk, a cover of the playlist with another
    extension included, is still there. *)
Theorem at_most_one_known_cover
    (id : string) (calls : list ((Op -> bool) * Js.value)) (w w' : World) :
  calls <> [] ->
  update_all id calls w = Some w' ->
  length (known_covers (files w') id) <= 1
  /\ (forall p,
        (forall ext, ext ∈ ["png"; "jpg"; "jpeg"; "gif"] -> p <> cover_path id ext) ->
        is_Some (files w !! p) -> is_Some (files w' !! p)).
Proof.
  intros Hne Hrun. split.
  - destruct (update_all_last id calls w w' Hne Hrun)
      as (fails & coverPath & w0 & Hcall).
    destruct (rejects_coverPath coverPath) eqn:Hguard.
    + unfold updatePlaylistCover in Hcall. rewrite Hguard in Hcall. discriminate Hcall.
    + pose proof (updatePlaylistCover_outcome fails id coverPath w0 Hguard) as Hout.
      rewrite Hcall in Hout. destruct Hout as (data & _ & -> & _).
      apply known_covers_after_update.
  - intros p. apply (update_all_keeps_other_files id calls w w' p Hrun).
Qed.

Definition two_updates_world : World :=
  default picker_world
    (update_all "p1" [(reliable, descriptor "Pictures/a.webp");
                      (reliable, descriptor "Pictures/b.png")] picker_world).

Lemma at_most_one_known_cover_witness :
  length (known_covers (files two_updates_world) "p1") <= 1
  /\ (forall p,
        (forall ext, ext ∈ ["png"; "jpg"; "jpeg"; "gif"] -> p <> cover_path "p1" ext) ->
        is_Some (files picker_world !! p) -> is_Some (files two_updates_world !! p)).
Proof.
  apply (at_most_one_known_cover "p1"
           [(reliable, descriptor "Pictures/a.webp");
            (reliable, descriptor "Pictures/b.png")] picker_world two_updates_world).
  - discriminate.
  - vm_compute. reflexivity.
Defined.

(** * Properties of the volume curve *)

Module VolumeFacts.
Import Volume.
Local Open Scope float_scope.

Lemma setVolume_zero Math_log Math_exp : setVolume Math_log Math_exp 0 = 0.
Proof. reflexivity. Qed.

(** Any other level is clamped to [1, 100] and mapped through the
    exponential. *)
Lemma setVolume_nonzero Math_log Math_exp (level : Z) :
  level <> 0%Z ->
  setVolume Math_log Math_exp level
  = Math_exp (exponent (Math_log thousandth) (Math_log 1) level).
Proof.
  intros Hnz. unfold setVolume, exponent.
  destruct (Z.eqb_spec level 0); [contradiction|reflexivity].
Qed.

Lemma setVolume_rounded Math_log Math_exp (level : Z) :
  log_as_rounded Math_log ->
  level <> 0%Z ->
  setVolume Math_log Math_exp level = Math_exp (exponent ln_thousandth 0 level).
Proof.
  intros [Hone Hthousandth] Hnz. rewrite setVolume_nonzero by exact Hnz.
  rewrite Hone, Hthousandth. reflexivity.
Qed.

(** The engine of the witnesses: a logarithm with the two values the
    curve asks for, and the exponential as engines compute it next to
    zero, where [exp x] is [1 + x] rounded. *)
Definition table_log (x : float) : float := if x =? 1 then 0 else ln_thousandth.
Definition exp_near_zero (x : float) : float := 1 + x.

Lemma table_log_rounded : log_as_rounded table_log.
Proof. split; reflexivity. Qed.

(** C4 at level 100: the argument handed to [Math.exp] is not zero but
    [-2^-50], the rounding error of [scale * 100] against [minv]; the gain
    is [Math.exp(-8.881784197001252e-16)]. *)
Theorem setVolume_full_scale (Math_log Math_exp : float -> float) :
  log_as_rounded Math_log ->
  setVolume Math_log Math_exp 100 = Math_exp (-0x1p-50)
  /\ (-0x1p-50 =? 0) = false.
Proof.
  intros Hlog. split; [|reflexivity].
  rewrite (setVolume_rounded _ _ 100 Hlog) by discriminate.
  f_equal.
Qed.

Lemma setVolume_full_scale_witness :
  setVolume table_log exp_near_zero 100 = exp_near_zero (-0x1p-50)
  /\ (-0x1p-50 =? 0) = false.
Proof.
  apply (setVolume_full_scale table_log exp_near_zero). exact table_log_rounded.
Defined.

(** With the exponential rounded as engines round it next to zero, full
    scale is one unit in the 50th binary place short of 1. *)
Example setVolume_full_scale_value :
  setVolume table_log exp_near_zero 100 = 0x1.ffffffffffff8p-1
  /\ (setVolume table_log exp_near_zero 100 =? 1) = false.
Proof. split; reflexivity. Qed.

(** The levels 1 to 100. *)
Definition levels : list Z := map Z.of_nat (seq 1 100).

Lemma level_in_levels (level : Z) : (1 <= level <= 100)%Z -> In level levels.
Proof.
  intros H. unfold levels. apply in_map_iff. exists (Z.to_nat level).
  split; [lia|]. apply in_seq. lia.
Qed.

(** Checked by evaluation on all pairs of levels: the arguments of the
    exponential are numbers, and they grow with the level. *)
Definition exponents_ordered (minv : float) : bool :=
  forallb (fun a =>
    (exponent minv 0 a =? exponent minv 0 a)
    && forallb (fun b =>
         implb (a <=? b)%Z (exponent minv 0 a <=? exponent minv 0 b))
       levels)
    levels.

Lemma exponents_ordered_rounded : exponents_ordered ln_thousandth = true.
Proof. vm_compute. reflexivity. Qed.

Lemma exponents_ordered_below : exponents_ordered ln_thousandth_below = true.
Proof. vm_compute. reflexivity. Qed.

Lemma exponent_is_number (minv : float) (level : Z) :
  exponents_ordered minv = true ->
  (1 <= level <= 100)%Z ->
  (exponent minv 0 level =? exponent minv 0 level) = true.
Proof.
  intros Hall H. unfold exponents_ordered in Hall.
  rewrite forallb_forall in Hall.
  specialize (Hall level (level_in_levels level H)).
  apply andb_true_iff in Hall as [Hnum _]. exact Hnum.
Qed.

Lemma exponent_grows (minv : float) (a b : Z) :
  exponents_ordered minv = true ->
  (1 <= a <= b)%Z -> (b <= 100)%Z ->
  (exponent minv 0 a <=? exponent minv 0 b) = true.
Proof.
  intros Hall Ha Hb. unfold exponents_ordered in Hall.
  rewrite forallb_forall in Hall.
  specialize (Hall a (level_in_levels a ltac:(lia))).
  apply andb_true_iff in Hall as [_ Hrow].
  rewrite forallb_forall in Hrow.
  specialize (Hrow b (level_in_levels b ltac:(lia))).
  assert ((a <=? b)%Z = true) as Hle by (apply Z.leb_le; lia).
  rewrite Hle in Hrow. exact Hrow.
Qed.

Lemma log_faithful_ordered Math_log :
  log_faithful Math_log ->
  Math_log 1 = 0 /\ exponents_ordered (Math_log thousandth) = true.
Proof.
  intros [Hone [H | H]]; (split; [exact Hone|]); rewrite H.
  - exact exponents_ordered_rounded.
  - exact exponents_ordered_below.
Qed.

(** C5: for levels [0 <= a <= b <= 100] the gain set for [a] is at most
    the gain set for [b], the step from silence at level 0 to level 1
    included -- given a logarithm that rounds faithfully and an exponential
    that is non-decreasing and non-negative. *)
Theorem setVolume_monotone (Math_log Math_exp : float -> float) (a b : Z) :
  log_faithful Math_log ->
  exp_monotone Math_exp ->
  (0 <= a <= b)%Z -> (b <= 100)%Z ->
  (setVolume Math_log Math_exp a <=? setVolume Math_log Math_exp b) = true.
Proof.
  intros Hlog [Hmono Hpos] Hab Hb.
  apply log_faithful_ordered in Hlog as [Hone Hordered].
  destruct (Z.eq_dec b 0%Z) as [->|Hbnz].
  - assert (a = 0)%Z as -> by lia. reflexivity.
  - rewrite (setVolume_nonzero _ _ b Hbnz), Hone.
    destruct (Z.eq_dec a 0%Z) as [->|Hanz].
    + rewrite setVolume_zero. apply Hpos, exponent_is_number; [exact Hordered|lia].
    + rewrite (setVolume_nonzero _ _ a Hanz), Hone.
      apply Hmono, exponent_grows; [exact Hordered|lia|lia].
Qed.

(** An exponential for the witness: a two-step staircase, one half below
    zero and one from zero on. *)
Definition step_exp (x : float) : float := if x <? 0 then 0.5 else 1.

Lemma below_zero_closed x y : (x <=? y) = true -> (y <? 0) = true -> (x <? 0) = true.
Proof.
  rewrite FloatAxioms.leb_spec, !FloatAxioms.ltb_spec.
  change (Prim2SF 0) with (S754_zero false).
  destruct (Prim2SF x) as [sx | sx | | sx mx ex], (Prim2SF y) as [sy | sy | | sy my ey];
    unfold SFleb, SFltb, SFcompare; try discriminate; try reflexivity;
    repeat match goal with s : bool |- _ => destruct s end;
    try discriminate; try reflexivity.
Qed.

Lemma step_exp_monotone : exp_monotone step_exp.
Proof.
  split.
  - intros x y H. unfold step_exp.
    destruct (y <? 0) eqn:Hy.
    + rewrite (below_zero_closed x y H Hy). reflexivity.
    + destruct (x <? 0); reflexivity.
  - intros x _. unfold step_exp. destruct (x <? 0); reflexivity.
Qed.

Lemma setVolume_monotone_witness :
  (setVolume table_log step_exp 0 <=? setVolume table_log step_exp 100) = true.
Proof.
  apply (setVolume_monotone table_log step_exp 0 100).
  - split; [reflexivity|left; reflexivity].
  - exact step_exp_monotone.
  - lia.
  - lia.
Defined.

End VolumeFacts.

(** * Properties of the audio graph *)

(** ** Lazy construction *)

Definition has_graph (a : App) : Prop := is_Some (audioContext (player (music a))).

(** A store action keeps the context when it does not take an existing
    one away. *)
Definition keeps_context (action : MusicStore -> MusicStore) : Prop :=
  forall m, is_Some (audioContext (player m)) -> is_Some (audioContext (player (action m))).

(** What happens to the plugin over the life of the process, as far as
    the graph is concerned: calls of [ensureAudioContextAndFilters], and
    the host suspending a running context. *)
Inductive Event : Type := CallEnsure | HostSuspends.

Definition host_suspend (a : App) : App :=
  with_music (with_player (with_context (fun ctx =>
    mkContext (match state ctx with running => suspended | s => s end)
              (connections ctx)))) a.

Definition run (ensure : App -> App) (events : list Event) (a : App) : App :=
  fold_left (fun a e => match e with
                        | CallEnsure => ensure a
                        | HostSuspends => host_suspend a
                        end) events a.

(** The nodes, the filter handles and the connections of two states are
    the same, and no context was created in between. *)
Definition same_graph (a a' : App) : Prop :=
  sourceNode (player (music a')) = sourceNode (player (music a))
  /\ analyser (player (music a')) = analyser (player (music a))
  /\ eqFilters (player (music a')) = eqFilters (player (music a))
  /\ connections <$> audioContext (player (music a'))
     = connections <$> audioContext (player (music a))
  /\ contexts_created a' = contexts_created a.

Section Ensure.

Variable host_state : ContextState.
Variable createEqFilters : MusicStore -> list BiquadFilter.
Variable connectEqFilters : MusicStore -> MusicStore.
Variable applyEqSettings : EqArgument -> MusicStore -> MusicStore.

Local Abbreviation ensure :=
  (ensureAudioContextAndFilters host_state createEqFilters connectEqFilters applyEqSettings).

Lemma ensure_existing a ctx :
  audioContext (player (music a)) = Some ctx ->
  ensure a = if is_suspended (player (music a))
             then with_music (with_player resume) a else a.
Proof.
  intros Hctx. unfold ensureAudioContextAndFilters, is_suspended. rewrite Hctx.
  destruct (state ctx); reflexivity.
Qed.

Lemma resume_same_graph a : same_graph a (with_music (with_player resume) a).
Proof.
  unfold same_graph. simpl. repeat split.
  destruct (audioContext (player (music a))); reflexivity.
Qed.

Lemma same_graph_refl a : same_graph a a.
Proof. unfold same_graph. auto. Qed.

Lemma ensure_existing_same_graph a :
  has_graph a -> same_graph a (ensure a).
Proof.
  intros [ctx Hctx]. rewrite (ensure_existing a ctx Hctx).
  destruct (is_suspended _); [apply resume_same_graph|apply same_graph_refl].
Qed.

Lemma is_suspended_resume p : is_suspended (resume p) = false.
Proof. unfold is_suspended, resume. simpl. destruct (audioContext p); reflexivity. Qed.

Lemma ensure_not_suspended a : is_suspended (player (music (ensure a))) = false.
Proof.
  unfold ensureAudioContextAndFilters.
  destruct (audioContext (player (music a))) as [ctx|] eqn:Hctx.
  - destruct (state ctx) eqn:Hstate; simpl.
    + apply is_suspended_resume.
    + unfold is_suspended. rewrite Hctx, Hstate. reflexivity.
    + unfold is_suspended. rewrite Hctx, Hstate. reflexivity.
  - cbv zeta. simpl music.
    match goal with |- context [if is_suspended (player ?m) then _ else _] =>
      destruct (is_suspended (player m)) eqn:Hs end.
    + apply is_suspended_resume.
    + exact Hs.
Qed.

Hypothesis connect_keeps : keeps_context connectEqFilters.
Hypothesis apply_keeps : forall arg, keeps_context (applyEqSettings arg).

Lemma ensure_has_graph a : has_graph (ensure a).
Proof.
  unfold has_graph, ensureAudioContextAndFilters.
  destruct (audioContext (player (music a))) as [ctx|] eqn:Hctx.
  - destruct (state ctx); simpl; rewrite ?Hctx; simpl; eauto.
  - cbv zeta. simpl music.
    match goal with |- context [if is_suspended (player ?m) then _ else _] =>
      assert (is_Some (audioContext (player m))) as Hsome
    end.
    { apply apply_keeps, connect_keeps. simpl. eauto. }
    match goal with |- context [if ?c then _ else _] => destruct c end.
    + simpl. destruct Hsome as [c ->]. simpl. eauto.
    + exact Hsome.
Qed.

Lemma ensure_twice a : ensure (ensure a) = ensure a.
Proof.
  destruct (ensure_has_graph a) as [ctx Hctx].
  rewrite (ensure_existing _ ctx Hctx), ensure_not_suspended. reflexivity.
Qed.

(** Every state the process reaches from one without a graph has seen at
    most one construction, and has a graph as soon as it has seen one. *)
Lemma run_invariant events a :
  (audioContext (player (music a)) = None /\ contexts_created a = 0)
  \/ (has_graph a /\ contexts_created a = 1) ->
  let a' := run ensure events a in
  (audioContext (player (music a')) = None /\ contexts_created a' = 0)
  \/ (has_graph a' /\ contexts_created a' = 1).
Proof.
  revert a. induction events as [|e rest IH]; intros a Ha; [exact Ha|].
  simpl. apply IH. destruct e.
  - destruct Ha as [[Hnone Hzero] | [Hgraph Hone]].
    + right. split; [apply ensure_has_graph|].
      unfold ensureAudioContextAndFilters. rewrite Hnone. simpl. lia.
    + right. split; [apply ensure_has_graph|].
      destruct (ensure_existing_same_graph a Hgraph) as (_ & _ & _ & _ & Hcount).
      lia.
  - destruct Ha as [[Hnone Hzero] | [[ctx Hctx] Hone]].
    + left. unfold host_suspend. simpl. rewrite Hnone. auto.
    + right. unfold host_suspend, has_graph. simpl. rewrite Hctx. simpl. eauto.
Qed.

End Ensure.

Lemma spec_connect_keeps : keeps_context spec_connectEqFilters.
Proof.
  intros m. unfold spec_connectEqFilters. simpl.
  generalize (chain SourceNode (eqFilters (player m))).
  intros edges. generalize (player m). clear m.
  induction edges as [|edge rest IH]; intros p Hp; [exact Hp|].
  simpl. apply IH. unfold connect. simpl. destruct Hp as [ctx ->]. simpl. eauto.
Qed.

Lemma spec_apply_keeps arg : keeps_context (spec_applyEqSettings arg).
Proof. intros m Hm. destruct arg; simpl; exact Hm. Qed.

(** C6: over any sequence of calls and host suspensions that starts
    without a graph, at most one audio context is ever created; calling
    again changes nothing further; and a call that finds a graph creates
    nothing, resumes the context when it is suspended, and leaves the
    source node, the analyser, the filter handles and the connections as
    they were -- for store actions that do not take the context away. *)
Theorem ensure_idempotent
    (host_state : ContextState)
    (createEqFilters : MusicStore -> list BiquadFilter)
    (connectEqFilters : MusicStore -> MusicStore)
    (applyEqSettings : EqArgument -> MusicStore -> MusicStore)
    (events : list Event) (a : App) :
  keeps_context connectEqFilters ->
  (forall arg, keeps_context (applyEqSettings arg)) ->
  audioContext (player (music a)) = None ->
  contexts_created a = 0 ->
  let ensure :=
    ensureAudioContextAndFilters host_state createEqFilters connectEqFilters
                                 applyEqSettings in
  let a' := run ensure events a in
  contexts_created a' <= 1
  /\ ensure (ensure a') = ensure a'
  /\ (has_graph a' ->
      same_graph a' (ensure a')
      /\ ensure a' = if is_suspended (player (music a'))
                     then with_music (with_player resume) a' else a').
Proof.
  intros Hconnect Happly Hnone Hzero ensure a'.
  split; [|split].
  - destruct (run_invariant host_state createEqFilters connectEqFilters applyEqSettings
                Hconnect Happly events a (or_introl (conj Hnone Hzero)))
      as [[_ Hc] | [_ Hc]]; fold ensure in Hc; fold a' in Hc; lia.
  - apply ensure_twice; assumption.
  - intros Hgraph. split.
    + apply ensure_existing_same_graph, Hgraph.
    + destruct Hgraph as [ctx Hctx]. apply (ensure_existing _ _ _ _ _ ctx Hctx).
Qed.

Definition boot : App :=
  mkApp (mkMusic (mkPlayer (mkAudio true 1%float) "" None None None [])
                 ["song-a"; "song-b"] 0 {["song-a"; "song-b"]})
        (mkSettings 50 [mkBandGain 3 (-6)%float])
        0.

Definition spec_ensure : App -> App :=
  ensureAudioContextAndFilters suspended spec_createEqFilters spec_connectEqFilters
                               spec_applyEqSettings.

(** A short life of the process: a first call, a suspension by the host,
    a second call. *)
Definition short_life : App := run spec_ensure [CallEnsure; HostSuspends; CallEnsure] boot.

Lemma ensure_idempotent_witness :
  contexts_created short_life <= 1
  /\ spec_ensure (spec_ensure short_life) = spec_ensure short_life
  /\ (has_graph short_life ->
      same_graph short_life (spec_ensure short_life)
      /\ spec_ensure short_life
         = if is_suspended (player (music short_life))
           then with_music (with_player resume) short_life else short_life).
Proof.
  apply (ensure_idempotent suspended spec_createEqFilters spec_connectEqFilters
           spec_applyEqSettings [CallEnsure; HostSuspends; CallEnsure] boot).
  - exact spec_connect_keeps.
  - exact spec_apply_keeps.
  - reflexivity.
  - reflexivity.
Defined.

(** ** First construction *)





(** With the store actions of the specification: the stored gain of band 3
    is -6 dB, the sibling [music.applyEqSettings] writes it, and the first
    [ensureAudioContextAndFilters] leaves the band at 0; the connections
    made are the direct ones followed by the chain. *)
Example ensure_leaves_stored_gain_unapplied :
  gain <$> eqFilters (player (music (spec_ensure boot))) !! 3 = Some 0%float
  /\ gain <$> eqFilters (player (music
        (music_applyEqSettings spec_applyEqSettings (spec_ensure boot)))) !! 3
     = Some (-6)%float
  /\ connections <$> audioContext (player (music (spec_ensure boot)))
     = Some ([(SourceNode, AnalyserNode); (AnalyserNode, DestinationNode)]
               ++ chain SourceNode (spec_createEqFilters (music boot)))%list.
Proof. repeat split; reflexivity. Qed.

(** * Further properties of the cover functions *)

(** ** What [updatePlaylistCover] leaves alone *)

(** Whatever way the removal loop ends, it has touched no file but the
    covers it probed, and no blob; and when it rejects, the environment
    refused one of its probes or removals. *)
Lemma remove_loop_frame fails id exts w :
  match for_of exts (remove_body fails id) w with
  | (w', r) =>
      (forall p, (forall ext, ext ∈ exts -> p <> cover_path id ext) ->
                 files w' !! p = files w !! p)
      /\ blobs w' = blobs w
      /\ match r with
         | Fulfilled _ => True
         | Throw e =>
             exists op ext,
               e = Rejected op /\ fails op = true /\ ext ∈ exts
               /\ (op = OpExists (cover_path id ext) \/ op = OpRemove (cover_path id ext))
         end
  end.
Proof.
  revert w. induction exts as [|ext rest IH]; intros w.
  - simpl. auto.
  - simpl. unfold bind at 1. unfold remove_body at 1, bind, exists_, remove, call.
    destruct (fails (OpExists (cover_path id ext))) eqn:Hex.
    { simpl. repeat split; try reflexivity.
      exists (OpExists (cover_path id ext)), ext. repeat split; auto. left. }
    simpl.
    destruct (files w !! cover_path id ext) as [old|] eqn:Hold.
    + rewrite bool_decide_eq_true_2 by eauto.
      destruct (fails (OpRemove (cover_path id ext))) eqn:Hrm.
      { simpl. repeat split; try reflexivity.
        exists (OpRemove (cover_path id ext)), ext. repeat split; auto. left. }
      simpl. rewrite Hold. simpl.
      specialize (IH (set_files (delete (cover_path id ext))
                        (record (OpRemove (cover_path id ext))
                           (record (OpExists (cover_path id ext)) w)))).
      destruct (for_of rest _ _) as [w' r]. simpl in IH.
      destruct IH as (Hframe & Hblobs & Hcause). split; [|split].
      * intros p Hp. rewrite Hframe by (intros e He; apply Hp; right; exact He).
        apply lookup_delete_ne. intros E. apply (Hp ext); [left|]; auto.
      * destruct r; simpl; exact Hblobs.
      * destruct r as [found|e]; simpl.
        -- destruct found; exact I.
        -- destruct Hcause as (op & e' & -> & Hop & He' & Hshape).
           exists op, e'. repeat split; auto. right. exact He'.
    + rewrite bool_decide_eq_false_2 by (intros [? ?]; discriminate).
      simpl.
      specialize (IH (record (OpExists (cover_path id ext)) w)).
      destruct (for_of rest _ _) as [w' r]. simpl in IH.
      destruct IH as (Hframe & Hblobs & Hcause). split; [|split].
      * intros p Hp. apply Hframe. intros e He. apply Hp. right. exact He.
      * destruct r; simpl; exact Hblobs.
      * destruct r as [found|e]; simpl.
        -- destruct found; exact I.
        -- destruct Hcause as (op & e' & -> & Hop & He' & Hshape).
           exists op, e'. repeat split; auto. right. exact He'.
Qed.

(** X1: in every environment and however the call ends, a file that is
    neither a cover of the playlist at one of the four known extensions nor
    the new cover is on disk exactly as before; covers of other playlists
    and the picked source file are never deleted or altered. *)
Theorem updatePlaylistCover_touches_own_covers_only
    (fails : Op -> bool) (id : string) (coverPath : Js.value) (w : World) (p : string) :
  (forall ext, ext ∈ ["png"; "jpg"; "jpeg"; "gif"] -> p <> cover_path id ext) ->
  p <> new_cover_path id coverPath ->
  files (updatePlaylistCover fails id coverPath w).1 !! p = files w !! p.
Proof.
  intros Hknown Hnew.
  destruct (rejects_coverPath coverPath) eqn:Hguard.
  { unfold updatePlaylistCover. rewrite Hguard. reflexivity. }
  rewrite (updatePlaylistCover_unfold _ _ _ Hguard). unfold bind at 1.
  pose proof (remove_loop_frame fails id ["png"; "jpg"; "jpeg"; "gif"] w) as Hloop.
  destruct (for_of _ _ w) as [w1 [found|e]]; destruct Hloop as (Hframe & _ & _);
    [|simpl; apply Hframe, Hknown].
  rewrite <- (Hframe p Hknown).
  unfold try_catch, bind, readFile, writeFile, db_execute_update_cover, call,
    console_error, throw.
  destruct (fails (OpReadFile _)); simpl; [reflexivity|].
  destruct (files w1 !! source_path coverPath); simpl; [|reflexivity].
  destruct (fails (OpWriteFile _)); simpl; [reflexivity|].
  destruct (fails (OpExecute _ _)); simpl; rewrite lookup_insert_ne by congruence;
    reflexivity.
Qed.

Lemma updatePlaylistCover_touches_own_covers_only_witness :
  files (updatePlaylistCover reliable "p1" (descriptor "Pictures/new.jpg") sample_world).1
    !! "Pictures/new.jpg"
  = files sample_world !! "Pictures/new.jpg".
Proof.
  apply (updatePlaylistCover_touches_own_covers_only reliable "p1"
           (descriptor "Pictures/new.jpg") sample_world "Pictures/new.jpg").
  - intros ext Hext. apply list_elem_of_In in Hext. simpl in Hext.
    destruct Hext as [<- | [<- | [<- | [<- | []]]]]; vm_compute; discriminate.
  - vm_compute. discriminate.
Defined.

(** X2: in every environment and however the call ends, the playlists
    table keeps its rows: no row is added or dropped, every row other than
    the playlist's is untouched, and the playlist's row keeps its name. *)
Theorem updatePlaylistCover_keeps_other_rows
    (fails : Op -> bool) (id : string) (coverPath : Js.value) (w : World) :
  dom (playlists (updatePlaylistCover fails id coverPath w).1) = dom (playlists w)
  /\ (forall other, other <> id ->
        playlists (updatePlaylistCover fails id coverPath w).1 !! other
        = playlists w !! other)
  /\ row_name <$> playlists (updatePlaylistCover fails id coverPath w).1 !! id
     = row_name <$> playlists w !! id.
Proof.
  assert (playlists (updatePlaylistCover fails id coverPath w).1 = playlists w
          \/ playlists (updatePlaylistCover fails id coverPath w).1
             = alter (fun r => mkRow (row_name r) (new_cover_path id coverPath)) id
                     (playlists w)) as [-> | ->].
  { destruct (rejects_coverPath coverPath) eqn:Hguard.
    - left. unfold updatePlaylistCover. rewrite Hguard. reflexivity.
    - pose proof (updatePlaylistCover_outcome fails id coverPath w Hguard) as Hout.
      destruct (updatePlaylistCover fails id coverPath w) as [w' [[]|[msg|msg|op]]];
        simpl.
      + right. destruct Hout as (data & _ & _ & Hp). exact Hp.
      + contradiction.
      + left. apply Hout.
      + left. exact Hout. }
  - auto.
  - split; [|split].
    + apply dom_alter_L.
    + intros other Hother. apply lookup_alter_ne. congruence.
    + rewrite lookup_alter_eq. destruct (playlists w !! id); reflexivity.
Qed.

(** ** How [updatePlaylistCover] ends *)

(** X3: when the call rejects with anything but its [TypeError] or its
    wrapped [Error], the rejection is that of an existence probe or a
    removal on one of the four cover paths which the environment refused
    during the removal loop; the playlists table is then untouched and the
    new cover has not been written. *)
Theorem updatePlaylistCover_raw_rejection
    (fails : Op -> bool) (id : string) (coverPath : Js.value) (w w' : World) (op : Op) :
  updatePlaylistCover fails id coverPath w = (w', Throw (Rejected op)) ->
  fails op = true
  /\ (exists ext, ext ∈ ["png"; "jpg"; "jpeg"; "gif"]
        /\ (op = OpExists (cover_path id ext) \/ op = OpRemove (cover_path id ext)))
  /\ playlists w' = playlists w
  /\ ((forall ext, ext ∈ ["png"; "jpg"; "jpeg"; "gif"] ->
         new_cover_path id coverPath <> cover_path id ext) ->
      files w' !! new_cover_path id coverPath = files w !! new_cover_path id coverPath).
Proof.
  intros Hrun.
  destruct (rejects_coverPath coverPath) eqn:Hguard.
  { unfold updatePlaylistCover in Hrun. rewrite Hguard in Hrun. discriminate Hrun. }
  rewrite (updatePlaylistCover_unfold _ _ _ Hguard) in Hrun. unfold bind at 1 in Hrun.
  pose proof (remove_loop_frame fails id ["png"; "jpg"; "jpeg"; "gif"] w) as Hframe.
  pose proof (remove_loop fails id ["png"; "jpg"; "jpeg"; "gif"] w) as Hloop.
  destruct (for_of _ _ w) as [w1 [found|e]].
  - exfalso. revert Hrun.
    unfold try_catch, bind, readFile, writeFile, db_execute_update_cover, call,
      console_error, throw.
    destruct (fails (OpReadFile _)); simpl; [discriminate|].
    destruct (files w1 !! source_path coverPath); simpl; [|discriminate].
    destruct (fails (OpWriteFile _)); simpl; [discriminate|].
    destruct (fails (OpExecute _ _)); simpl; discriminate.
  - injection Hrun as -> ->.
    destruct Hframe as (Hfiles & _ & (op' & ext & Hop & Hfails & Hext & Hshape)).
    injection Hop as ->. destruct Hloop as [_ Hp].
    repeat split; eauto.
Qed.

Definition locked_png (op : Op) : bool :=
  match op with
  | OpRemove path => String.eqb path "Vleer/Covers/p1.png"
  | _ => false
  end.

Lemma updatePlaylistCover_raw_rejection_witness :
  locked_png (OpRemove "Vleer/Covers/p1.png") = true
  /\ (exists ext, ext ∈ ["png"; "jpg"; "jpeg"; "gif"]
        /\ (OpRemove "Vleer/Covers/p1.png" = OpExists (cover_path "p1" ext)
            \/ OpRemove "Vleer/Covers/p1.png" = OpRemove (cover_path "p1" ext)))
  /\ playlists (updatePlaylistCover locked_png "p1" (descriptor "Pictures/new.jpg")
                  sample_world).1
     = playlists sample_world
  /\ ((forall ext, ext ∈ ["png"; "jpg"; "jpeg"; "gif"] ->
         new_cover_path "p1" (descriptor "Pictures/new.jpg") <> cover_path "p1" ext) ->
      files (updatePlaylistCover locked_png "p1" (descriptor "Pictures/new.jpg")
               sample_world).1
        !! new_cover_path "p1" (descriptor "Pictures/new.jpg")
      = files sample_world !! new_cover_path "p1" (descriptor "Pictures/new.jpg")).
Proof.
  apply (updatePlaylistCover_raw_rejection locked_png "p1"
           (descriptor "Pictures/new.jpg") sample_world).
  vm_compute. reflexivity.
Defined.

(** On a file system that refuses nothing the removal loop completes. *)
Lemma remove_loop_reliable id exts w :
  exists w1,
    for_of exts (remove_body reliable id) w = (w1, Fulfilled None)
    /\ files w1 = purge_in id exts (files w)
    /\ playlists w1 = playlists w
    /\ blobs w1 = blobs w.
Proof.
  pose proof (remove_loop reliable id exts w) as Hloop.
  pose proof (remove_loop_frame reliable id exts w) as Hframe.
  destruct (for_of exts _ w) as [w1 [found|e]].
  - destruct Hloop as (-> & Hf & Hp). destruct Hframe as (_ & Hb & _). eauto.
  - destruct Hframe as (_ & _ & (op & ext & _ & Hfails & _)). discriminate Hfails.
Qed.

(** A run on a file system that refuses nothing, with a source that is
    there and is not one of the playlist's four cover paths. *)
Lemma updatePlaylistCover_reliable_run id coverPath w data :
  rejects_coverPath coverPath = false ->
  files w !! source_path coverPath = Some data ->
  (forall ext, ext ∈ ["png"; "jpg"; "jpeg"; "gif"] ->
     source_path coverPath <> cover_path id ext) ->
  exists w',
    updatePlaylistCover reliable id coverPath w = (w', Fulfilled tt)
    /\ files w' = <[new_cover_path id coverPath := data]> (purge id (files w))
    /\ playlists w'
       = alter (fun r => mkRow (row_name r) (new_cover_path id coverPath)) id (playlists w).
Proof.
  intros Hguard Hsrc Hother.
  rewrite (updatePlaylistCover_unfold _ _ _ Hguard). unfold bind at 1.
  destruct (remove_loop_reliable id ["png"; "jpg"; "jpeg"; "gif"] w)
    as (w1 & -> & Hf & Hp & _).
  fold (purge id (files w)) in Hf.
  assert (files w1 !! source_path coverPath = Some data) as Hread.
  { rewrite Hf. unfold purge. rewrite lookup_purge_in_other by exact Hother. exact Hsrc. }
  unfold try_catch, bind, readFile, writeFile, db_execute_update_cover, call, reliable.
  simpl. rewrite Hread. simpl.
  eexists. split; [reflexivity|]. simpl. rewrite Hf, Hp. split; reflexivity.
Qed.

(** X4: on a file system that refuses nothing, an update whose source file
    exists and is not itself one of the playlist's four cover paths
    completes: the old covers are gone, the new cover holds the bytes of
    the source, and the playlist's row, when there is one, points to it. *)
Theorem updatePlaylistCover_installs
    (id : string) (coverPath : Js.value) (w : World) (data : bytes) :
  well_formed_descriptor coverPath ->
  files w !! source_path coverPath = Some data ->
  (forall ext, ext ∈ ["png"; "jpg"; "jpeg"; "gif"] ->
     source_path coverPath <> cover_path id ext) ->
  exists w',
    updatePlaylistCover reliable id coverPath w = (w', Fulfilled tt)
    /\ files w' = <[new_cover_path id coverPath := data]> (purge id (files w))
    /\ files w' !! new_cover_path id coverPath = Some data
    /\ playlists w' !! id
       = (fun r => mkRow (row_name r) (new_cover_path id coverPath)) <$> playlists w !! id.
Proof.
  intros Hwf Hsrc Hother. apply rejects_coverPath_iff in Hwf.
  destruct (updatePlaylistCover_reliable_run id coverPath w data Hwf Hsrc Hother)
    as (w' & Hrun & Hf & Hp).
  exists w'. split; [exact Hrun|]. split; [exact Hf|]. split.
  - rewrite Hf. apply lookup_insert_eq.
  - rewrite Hp. apply lookup_alter_eq.
Qed.

Lemma updatePlaylistCover_installs_witness :
  exists w',
    updatePlaylistCover reliable "p1" (descriptor "Pictures/new.jpg") sample_world
      = (w', Fulfilled tt)
    /\ files w' = <[new_cover_path "p1" (descriptor "Pictures/new.jpg")
                     := [Byte.xff; Byte.xd8]]> (purge "p1" (files sample_world))
    /\ files w' !! new_cover_path "p1" (descriptor "Pictures/new.jpg")
       = Some [Byte.xff; Byte.xd8]
    /\ playlists w' !! "p1"
       = (fun r => mkRow (row_name r) (new_cover_path "p1" (descriptor "Pictures/new.jpg")))
           <$> playlists sample_world !! "p1".
Proof.
  apply (updatePlaylistCover_installs "p1" (descriptor "Pictures/new.jpg") sample_world
           [Byte.xff; Byte.xd8]).
  - exists [("path", Js.str "Pictures/new.jpg")], "Pictures/new.jpg". split; reflexivity.
  - vm_compute. reflexivity.
  - intros ext Hext. apply list_elem_of_In in Hext. simpl in Hext.
    destruct Hext as [<- | [<- | [<- | [<- | []]]]]; vm_compute; discriminate.
Defined.

(** X5: picking the playlist's own cover file as the new cover destroys
    it: the removal loop deletes the file before it is read, so on a file
    system that refuses nothing the call fails with its wrapped [Error] and
    leaves the playlist without any cover at the four known extensions. *)
Theorem updatePlaylistCover_own_cover_is_lost (id ext : string) (w : World) :
  ext ∈ ["png"; "jpg"; "jpeg"; "gif"] ->
  exists w',
    updatePlaylistCover reliable id (descriptor (cover_path id ext)) w
      = (w', Throw (Error "Failed to update playlist cover due to path or permission issues."))
    /\ files w' = purge id (files w)
    /\ known_covers (files w') id = []
    /\ playlists w' = playlists w.
Proof.
  intros Hext.
  assert (rejects_coverPath (descriptor (cover_path id ext)) = false) as Hguard
    by reflexivity.
  rewrite (updatePlaylistCover_unfold _ _ _ Hguard). unfold bind at 1.
  destruct (remove_loop_reliable id ["png"; "jpg"; "jpeg"; "gif"] w)
    as (w1 & -> & Hf & Hp & _).
  fold (purge id (files w)) in Hf.
  change (source_path (descriptor (cover_path id ext))) with (cover_path id ext).
  assert (files w1 !! cover_path id ext = None) as Hgone.
  { rewrite Hf. apply lookup_purge_in_cover, Hext. }
  unfold try_catch, bind, readFile, call, console_error, throw, reliable.
  simpl. rewrite Hgone. simpl.
  assert (forall e, e ∈ ["png"; "jpg"; "jpeg"; "gif"] -> has_cover (files w1) id e = false)
    as Hnone.
  { intros e He. unfold has_cover. rewrite Hf. unfold purge.
    rewrite lookup_purge_in_cover by exact He.
    apply bool_decide_eq_false_2. intros [? ?]. discriminate. }
  eexists. split; [reflexivity|]. simpl. split; [exact Hf|]. split; [|exact Hp].
  unfold known_covers. simpl.
  rewrite (Hnone "png"), (Hnone "jpg"), (Hnone "jpeg"), (Hnone "gif")
    by (apply list_elem_of_In; simpl; tauto).
  reflexivity.
Qed.

Lemma updatePlaylistCover_own_cover_is_lost_witness :
  exists w',
    updatePlaylistCover reliable "p1" (descriptor (cover_path "p1" "png")) sample_world
      = (w', Throw (Error "Failed to update playlist cover due to path or permission issues."))
    /\ files w' = purge "p1" (files sample_world)
    /\ known_covers (files w') "p1" = []
    /\ playlists w' = playlists sample_world.
Proof.
  apply (updatePlaylistCover_own_cover_is_lost "p1" "png" sample_world). set_solver.
Defined.

(** ** Updates seen through the resolver *)

(** The extension [updatePlaylistCover] gives the new cover. *)
Definition extension_of (coverPath : Js.value) : string :=
  Js.interpolate (Js.pop (Js.split "." (source_path coverPath))).

Lemma new_cover_path_extension id coverPath :
  new_cover_path id coverPath = cover_path id (extension_of coverPath).
Proof. reflexivity. Qed.

Lemma resolve_in_after_update_hit id fs data exts ext :
  (forall e, e ∈ exts -> e ∈ ["png"; "jpg"; "jpeg"; "gif"]) ->
  ext ∈ exts ->
  resolve_in (<[cover_path id ext := data]> (purge id fs)) id exts = Image data.
Proof.
  induction exts as [|e rest IH]; intros Hsub Hin; [inversion Hin|].
  simpl. destruct (decide (e = ext)) as [->|E].
  - rewrite lookup_insert_eq. reflexivity.
  - rewrite lookup_insert_ne by (intros Eq; apply cover_path_inj in Eq; congruence).
    unfold purge at 1. rewrite lookup_purge_in_cover by (apply Hsub; left).
    apply IH; [intros e' He'; apply Hsub; right; exact He'|].
    inversion Hin; subst; [contradiction|assumption].
Qed.

Lemma resolve_in_after_update_miss id fs target data exts :
  (forall e, e ∈ exts -> e ∈ ["png"; "jpg"; "jpeg"; "gif"]) ->
  (forall e, e ∈ exts -> cover_path id e <> target) ->
  resolve_in (<[target := data]> (purge id fs)) id exts = Asset "/cover.png".
Proof.
  induction exts as [|e rest IH]; intros Hsub Hmiss; [reflexivity|].
  simpl. rewrite lookup_insert_ne by (intros Eq; apply (Hmiss e); [left|]; auto).
  unfold purge at 1. rewrite lookup_purge_in_cover by (apply Hsub; left).
  apply IH; intros e' He'; [apply Hsub|apply Hmiss]; right; exact He'.
Qed.

Lemma completed_update_files fails id coverPath w w' :
  updatePlaylistCover fails id coverPath w = (w', Fulfilled tt) ->
  exists data,
    purge id (files w) !! source_path coverPath = Some data
    /\ files w' = <[new_cover_path id coverPath := data]> (purge id (files w)).
Proof.
  intros Hcall.
  destruct (rejects_coverPath coverPath) eqn:Hguard.
  - unfold updatePlaylistCover in Hcall. rewrite Hguard in Hcall. discriminate Hcall.
  - pose proof (updatePlaylistCover_outcome fails id coverPath w Hguard) as Hout.
    rewrite Hcall in Hout. destruct Hout as (data & Hsrc & Hf & _). eauto.
Qed.

(** X6: a completed update whose source path ends in png, jpg, jpeg or gif
    is what the resolver shows next: [getCoverURLFromID] returns a URL for
    the bytes that were read from the source, whatever covers the playlist
    had before. *)
Theorem update_then_resolve_shows_new_cover
    (fails : Op -> bool) (id : string) (coverPath : Js.value) (w w' : World) :
  updatePlaylistCover fails id coverPath w = (w', Fulfilled tt) ->
  extension_of coverPath ∈ ["png"; "jpg"; "jpeg"; "gif"] ->
  exists data w'' url,
    purge id (files w) !! source_path coverPath = Some data
    /\ getCoverURLFromID reliable id w' = (w'', Fulfilled url)
    /\ shown w'' url = Image data.
Proof.
  intros Hcall Hext.
  destruct (completed_update_files fails id coverPath w w' Hcall) as (data & Hsrc & Hf).
  rewrite getCoverURLFromID_unfold.
  destruct (probe_then_fallback_once id w') as (w'' & url & Hrun & Hshown & _).
  exists data, w'', url. split; [exact Hsrc|]. split; [exact Hrun|].
  rewrite Hshown, Hf, new_cover_path_extension. unfold resolve.
  apply resolve_in_after_update_hit; auto.
Qed.

Lemma update_then_resolve_shows_new_cover_witness :
  exists data w'' url,
    purge "p1" (files sample_world) !! source_path (descriptor "Pictures/new.jpg")
      = Some data
    /\ getCoverURLFromID reliable "p1"
         (updatePlaylistCover reliable "p1" (descriptor "Pictures/new.jpg") sample_world).1
       = (w'', Fulfilled url)
    /\ shown w'' url = Image data.
Proof.
  apply (update_then_resolve_shows_new_cover reliable "p1"
           (descriptor "Pictures/new.jpg") sample_world).
  - vm_compute. reflexivity.
  - vm_compute. set_solver.
Defined.

(** X7: a completed update whose source path ends in anything else (webp,
    PNG, no extension at all) writes a cover file the resolver never finds:
    right after the update [getCoverURLFromID] returns the placeholder
    ["/cover.png"], although the new file is on disk. *)
Theorem update_with_unknown_extension_is_not_shown
    (fails : Op -> bool) (id : string) (coverPath : Js.value) (w w' : World) :
  updatePlaylistCover fails id coverPath w = (w', Fulfilled tt) ->
  extension_of coverPath ∉ ["png"; "jpg"; "jpeg"; "gif"] ->
  is_Some (files w' !! new_cover_path id coverPath)
  /\ exists w'',
       getCoverURLFromID reliable id w' = (w'', Fulfilled (StaticUrl "/cover.png")).
Proof.
  intros Hcall Hext.
  destruct (completed_update_files fails id coverPath w w' Hcall) as (data & Hsrc & Hf).
  split; [rewrite Hf, lookup_insert_eq; eauto|].
  rewrite getCoverURLFromID_unfold.
  destruct (probe_then_fallback_once id w') as (w'' & url & Hrun & Hshown & _).
  exists w''. rewrite Hrun. f_equal. f_equal.
  rewrite Hf in Hshown. unfold resolve in Hshown.
  rewrite resolve_in_after_update_miss in Hshown.
  - destruct url as [s|h]; simpl in Hshown.
    + congruence.
    + destruct (blobs w'' !! h); discriminate.
  - auto.
  - intros e He Heq. apply Hext.
    rewrite new_cover_path_extension in Heq. apply cover_path_inj in Heq.
    rewrite <- Heq. exact He.
Qed.

Lemma update_with_unknown_extension_is_not_shown_witness :
  is_Some (files (updatePlaylistCover reliable "p1" (descriptor "Pictures/a.webp")
                    picker_world).1
             !! new_cover_path "p1" (descriptor "Pictures/a.webp"))
  /\ exists w'',
       getCoverURLFromID reliable "p1"
         (updatePlaylistCover reliable "p1" (descriptor "Pictures/a.webp") picker_world).1
       = (w'', Fulfilled (StaticUrl "/cover.png")).
Proof.
  apply (update_with_unknown_extension_is_not_shown reliable "p1"
           (descriptor "Pictures/a.webp") picker_world).
  - vm_compute. reflexivity.
  - vm_compute. intros H. apply list_elem_of_In in H. simpl in H.
    destruct H as [H | [H | [H | [H | []]]]]; discriminate H.
Defined.

(** ** The resolvers in an arbitrary environment *)

(** What the probing loop does whatever the environment refuses. *)
Lemma probe_loop_any fails id exts w :
  match for_of exts (probe_body fails id) w with
  | (w', r) =>
      files w' = files w
      /\ playlists w' = playlists w
      /\ match r with
         | Fulfilled (Some url) =>
             exists contents,
               resolve_in (files w) id exts = Image contents
               /\ url = BlobUrl (length (blobs w))
               /\ blobs w' = (blobs w ++ [contents])%list
         | Fulfilled None =>
             resolve_in (files w) id exts = Asset "/cover.png" /\ blobs w' = blobs w
         | Throw e => exists op, e = Rejected op /\ fails op = true /\ blobs w' = blobs w
         end
  end.
Proof.
  revert w. induction exts as [|ext rest IH]; intros w.
  - simpl. auto.
  - simpl. unfold bind at 1. unfold probe_body at 1, bind, exists_, readFile, call.
    destruct (fails (OpExists (cover_path id ext))) eqn:Hex; [simpl; eauto 10|].
    simpl.
    destruct (files w !! cover_path id ext) as [contents|] eqn:Hfile.
    + rewrite bool_decide_eq_true_2 by eauto.
      destruct (fails (OpReadFile (cover_path id ext))) eqn:Hrd; [simpl; eauto 10|].
      simpl. rewrite Hfile. simpl. eauto 10.
    + rewrite bool_decide_eq_false_2 by (intros [? ?]; discriminate). simpl.
      specialize (IH (record (OpExists (cover_path id ext)) w)).
      destruct (for_of rest _ _) as [w' r]. simpl in IH. exact IH.
Qed.

(** A resolver is safe when, in every environment, it changes neither the
    disk nor the table; a URL it returns shows what [resolve] prescribes
    for the disk; and a rejection is that of a call the environment
    refused -- so the placeholder is returned only when none of the four
    covers exists. *)
Definition safe_resolver (f : (Op -> bool) -> string -> Async Url) : Prop :=
  forall (fails : Op -> bool) (id : string) (w : World),
    match f fails id w with
    | (w', r) =>
        files w' = files w
        /\ playlists w' = playlists w
        /\ match r with
           | Fulfilled url => shown w' url = resolve (files w) id
           | Throw e => exists op, e = Rejected op /\ fails op = true
           end
    end.

Lemma getCoverURLFromID_safe : safe_resolver getCoverURLFromID.
Proof.
  intros fails id w. rewrite getCoverURLFromID_unfold. unfold bind.
  pose proof (probe_loop_any fails id ["png"; "jpg"; "jpeg"; "gif"] w) as Hloop.
  destruct (for_of _ _ w) as [w' [[url|]|e]]; destruct Hloop as (Hf & Hp & Hres); simpl.
  - destruct Hres as (contents & Hresolve & -> & Hblobs).
    repeat split; try assumption. unfold resolve. rewrite Hresolve. simpl.
    rewrite Hblobs, lookup_app_r by lia. rewrite Nat.sub_diag. reflexivity.
  - destruct Hres as [Hresolve _]. repeat split; try assumption.
    unfold resolve. rewrite Hresolve. reflexivity.
  - destruct Hres as (op & -> & Hop & _). repeat split; eauto.
Qed.

(** X8: in every environment, [getCoverURLFromID] and
    [searchCoverByPlaylistId] are the same function; they never change the
    disk or the playlists table; the URL they return shows the first
    existing cover in probe order, and is the placeholder only when none of
    the four exists; a refused probe or read surfaces as that call's
    rejection, never as the placeholder. *)
Theorem resolvers_safe_in_any_environment :
  safe_resolver getCoverURLFromID
  /\ safe_resolver searchCoverByPlaylistId
  /\ forall fails id w, searchCoverByPlaylistId fails id w = getCoverURLFromID fails id w.
Proof.
  split; [exact getCoverURLFromID_safe|]. split; [exact getCoverURLFromID_safe|].
  reflexivity.
Qed.

(** X9: the resolvers mint a new blob URL on every call that finds a cover
    and never release one: two calls in a row on the same disk return
    different URLs, and the registry has grown by two copies of the
    image. *)
Theorem resolver_mints_a_url_per_call (id : string) (w : World) (contents : bytes) :
  resolve (files w) id = Image contents ->
  exists w1 w2,
    getCoverURLFromID reliable id w = (w1, Fulfilled (BlobUrl (length (blobs w))))
    /\ getCoverURLFromID reliable id w1 = (w2, Fulfilled (BlobUrl (S (length (blobs w)))))
    /\ blobs w2 = (blobs w ++ [contents; contents])%list.
Proof.
  intros Hresolve.
  assert (forall w0, files w0 = files w ->
            exists w',
              getCoverURLFromID reliable id w0
                = (w', Fulfilled (BlobUrl (length (blobs w0))))
              /\ files w' = files w
              /\ blobs w' = (blobs w0 ++ [contents])%list) as Hcall.
  { intros w0 Hw0. rewrite getCoverURLFromID_unfold. unfold bind.
    pose proof (probe_loop_any reliable id ["png"; "jpg"; "jpeg"; "gif"] w0) as Hloop.
    unfold resolve in Hresolve. rewrite Hw0 in Hloop.
    destruct (for_of _ _ w0) as [w' [[url|]|e]]; destruct Hloop as (Hf & _ & Hres).
    - destruct Hres as (c & Hc & -> & Hb). rewrite Hresolve in Hc. injection Hc as <-.
      exists w'. auto.
    - destruct Hres as [Hc _]. rewrite Hresolve in Hc. discriminate Hc.
    - destruct Hres as (op & _ & Hop & _). discriminate Hop. }
  destruct (Hcall w eq_refl) as (w1 & Hrun1 & Hf1 & Hb1).
  destruct (Hcall w1 Hf1) as (w2 & Hrun2 & _ & Hb2).
  exists w1, w2. split; [exact Hrun1|]. split.
  - rewrite Hrun2, Hb1, length_app. simpl. repeat f_equal. lia.
  - rewrite Hb2, Hb1, <- app_assoc. reflexivity.
Qed.

Lemma resolver_mints_a_url_per_call_witness :
  exists w1 w2,
    getCoverURLFromID reliable "p1" leftovers_world
      = (w1, Fulfilled (BlobUrl (length (blobs leftovers_world))))
    /\ getCoverURLFromID reliable "p1" w1
       = (w2, Fulfilled (BlobUrl (S (length (blobs leftovers_world)))))
    /\ blobs w2 = (blobs leftovers_world ++ [[Byte.xff; Byte.xd8]; [Byte.xff; Byte.xd8]])%list.
Proof.
  apply (resolver_mints_a_url_per_call "p1" leftovers_world [Byte.xff; Byte.xd8]).
  vm_compute. reflexivity.
Defined.

(** X10: when the png cover exists, the song-cover accessor
    [getCoverFromID] and the playlist resolver [getCoverURLFromID] agree:
    on a file system that refuses nothing both return a URL showing the
    bytes of [Vleer/Covers/<id>.png], and neither changes the disk. *)
Theorem getCoverFromID_agrees_on_png (id : string) (w : World) (contents : bytes) :
  files w !! cover_path id "png" = Some contents ->
  exists w1 w2 url1 url2,
    getCoverFromID reliable id w = (w1, Fulfilled url1)
    /\ getCoverURLFromID reliable id w = (w2, Fulfilled url2)
    /\ shown w1 url1 = Image contents
    /\ shown w2 url2 = Image contents
    /\ files w1 = files w
    /\ files w2 = files w.
Proof.
  intros Hpng.
  destruct (probe_then_fallback_once id w) as (w2 & url2 & Hrun2 & Hshown2 & Hf2 & _).
  rewrite getCoverURLFromID_unfold, Hrun2.
  change (cover_path id "png") with ("Vleer/Covers/" +:+ id +:+ ".png") in Hpng.
  unfold getCoverFromID, bind, readFile, call, reliable. simpl. rewrite Hpng. simpl.
  eexists _, w2, _, url2. split; [reflexivity|]. split; [reflexivity|].
  split; [|split; [|split; [reflexivity|exact Hf2]]].
  - simpl. rewrite lookup_app_r by lia. rewrite Nat.sub_diag. reflexivity.
  - rewrite Hshown2. unfold resolve. simpl.
    change (cover_path id "png") with ("Vleer/Covers/" +:+ id +:+ ".png").
    rewrite Hpng. reflexivity.
Qed.

Lemma getCoverFromID_agrees_on_png_witness :
  exists w1 w2 url1 url2,
    getCoverFromID reliable "p1" sample_world = (w1, Fulfilled url1)
    /\ getCoverURLFromID reliable "p1" sample_world = (w2, Fulfilled url2)
    /\ shown w1 url1 = Image [Byte.x89; Byte.x50]
    /\ shown w2 url2 = Image [Byte.x89; Byte.x50]
    /\ files w1 = files sample_world
    /\ files w2 = files sample_world.
Proof.
  apply (getCoverFromID_agrees_on_png "p1" sample_world [Byte.x89; Byte.x50]).
  vm_compute. reflexivity.
Defined.

(** ** The extension of the new cover *)

Fixpoint has_dot (s : string) : bool :=
  match s with
  | EmptyString => false
  | String c rest => Ascii.eqb c "." || has_dot rest
  end.

(** [split('.')] yields the string itself when it has no dot, and
    otherwise at least two segments, the last of which is dot-free and
    ends the string after a dot. *)
Lemma split_dot_shape (s : string) :
  (has_dot s = false /\ Js.split "." s = [s])
  \/ (has_dot s = true
      /\ exists first rest e stem,
           Js.split "." s = first :: rest
           /\ last rest = Some e
           /\ has_dot e = false
           /\ s = stem +:+ "." +:+ e).
Proof.
  induction s as [|c s IH].
  - left. split; reflexivity.
  - simpl. destruct (Ascii.eqb_spec c ".") as [->|Hc]; simpl.
    + right. split; [reflexivity|].
      destruct IH as [[Hnodot Hsplit] | (Hdot & first & rest & e & stem & Hsplit & Hlast & He & Hs)].
      * exists "", [s], s, "". rewrite Hsplit. repeat split; auto.
      * exists "", (first :: rest), e, ("." +:+ stem). rewrite Hsplit.
        repeat split; auto.
        -- destruct rest; [discriminate Hlast|exact Hlast].
        -- rewrite Hs at 1. reflexivity.
    + destruct IH as [[Hnodot Hsplit] | (Hdot & first & rest & e & stem & Hsplit & Hlast & He & Hs)].
      * left. rewrite Hsplit. auto.
      * right. split; [exact Hdot|].
        exists (String c first), rest, e, (String c stem). rewrite Hsplit.
        repeat split; auto. rewrite Hs at 1. reflexivity.
Qed.

(** X11: the extension given to the new cover is the part of the source
    path after its last dot and contains no dot itself; a source path
    without any dot is taken whole as the extension, so the new cover is
    then named [<id>.<path>]. *)
Theorem extension_is_last_segment (path : string) :
  has_dot (extension_of (descriptor path)) = false
  /\ (if has_dot path
      then exists stem, path = stem +:+ "." +:+ extension_of (descriptor path)
      else extension_of (descriptor path) = path).
Proof.
  unfold extension_of. change (source_path (descriptor path)) with path.
  unfold Js.pop.
  destruct (split_dot_shape path)
    as [[Hnodot Hsplit] | (Hdot & first & rest & e & stem & Hsplit & Hlast & He & Hs)].
  - rewrite Hnodot, Hsplit. simpl. auto.
  - rewrite Hdot, Hsplit.
    assert (last (first :: rest) = Some e) as ->
      by (destruct rest; [discriminate Hlast|exact Hlast]).
    simpl. split; [exact He|]. exists stem. exact Hs.
Qed.

Example extension_examples :
  extension_of (descriptor "Pictures/summer.holiday.JPG") = "JPG"
  /\ extension_of (descriptor "Pictures/cover") = "Pictures/cover"
  /\ extension_of (descriptor "archive.tar.gz") = "gz"
  /\ new_cover_path "p1" (descriptor "Pictures/cover") = "Vleer/Covers/p1.Pictures/cover".
Proof. repeat split; reflexivity. Qed.

(** * Further properties of the volume curve *)

Module VolumeRange.
Import Volume VolumeFacts.
Local Open Scope float_scope.

Lemma exponent_clamped minv maxv (level : Z) :
  exponent minv maxv (Z.max 1 (Z.min 100 level)) = exponent minv maxv level.
Proof.
  unfold exponent.
  replace (Z.max 1 (Z.min 100 (Z.max 1 (Z.min 100 level))))
    with (Z.max 1 (Z.min 100 level)) by lia.
  reflexivity.
Qed.

(** X12: the gain depends on the level only through its clamp to
    [1, 100]: every level above 100 sets the gain of 100, and every level
    below 1 other than 0 -- negative levels included -- sets the gain of 1
    rather than silence. *)
Theorem setVolume_clamps (Math_log Math_exp : float -> float) (level : Z) :
  level <> 0%Z ->
  setVolume Math_log Math_exp level
  = setVolume Math_log Math_exp (Z.max 1 (Z.min 100 level)).
Proof.
  intros Hnz.
  rewrite (setVolume_nonzero _ _ level Hnz).
  rewrite (setVolume_nonzero _ _ (Z.max 1 (Z.min 100 level))) by lia.
  rewrite exponent_clamped. reflexivity.
Qed.

Lemma setVolume_clamps_witness :
  setVolume table_log exp_near_zero (-5)
  = setVolume table_log exp_near_zero (Z.max 1 (Z.min 100 (-5))).
Proof.
  apply (setVolume_clamps table_log exp_near_zero (-5)%Z). discriminate.
Defined.

(** Checked by evaluation: no argument of the exponential is above zero. *)
Definition exponents_nonpositive (minv : float) : bool :=
  forallb (fun a => exponent minv 0 a <=? 0) levels.

Lemma exponents_nonpositive_rounded : exponents_nonpositive ln_thousandth = true.
Proof. vm_compute. reflexivity. Qed.

Lemma exponents_nonpositive_below : exponents_nonpositive ln_thousandth_below = true.
Proof. vm_compute. reflexivity. Qed.

Lemma log_faithful_nonpositive Math_log :
  log_faithful Math_log -> exponents_nonpositive (Math_log thousandth) = true.
Proof.
  intros [_ [H | H]]; rewrite H.
  - exact exponents_nonpositive_rounded.
  - exact exponents_nonpositive_below.
Qed.

(** X13: every integer level, in or out of range, sets a gain between 0
    and 1, the range outside of which the assignment to [audio.volume]
    throws -- given a logarithm that rounds faithfully and an exponential
    that is non-decreasing, non-negative and 1 at zero. *)
Theorem setVolume_within_unit_range (Math_log Math_exp : float -> float) (level : Z) :
  log_faithful Math_log ->
  exp_monotone Math_exp ->
  Math_exp 0 = 1 ->
  (0 <=? setVolume Math_log Math_exp level) = true
  /\ (setVolume Math_log Math_exp level <=? 1) = true.
Proof.
  intros Hlog [Hmono Hpos] Hzero.
  destruct (Z.eq_dec level 0%Z) as [->|Hnz]; [split; reflexivity|].
  pose proof (log_faithful_nonpositive _ Hlog) as Hneg.
  apply log_faithful_ordered in Hlog as [Hone Hordered].
  rewrite (setVolume_nonzero _ _ level Hnz), Hone, <- exponent_clamped.
  assert (1 <= Z.max 1 (Z.min 100 level) <= 100)%Z as Hrange by lia.
  split.
  - apply Hpos, exponent_is_number; assumption.
  - rewrite <- Hzero. apply Hmono.
    unfold exponents_nonpositive in Hneg. rewrite forallb_forall in Hneg.
    apply Hneg, level_in_levels, Hrange.
Qed.

Lemma setVolume_within_unit_range_witness :
  (0 <=? setVolume table_log step_exp 250) = true
  /\ (setVolume table_log step_exp 250 <=? 1) = true.
Proof.
  apply (setVolume_within_unit_range table_log step_exp 250).
  - split; [reflexivity|left; reflexivity].
  - exact step_exp_monotone.
  - reflexivity.
Defined.

End VolumeRange.

(** * Further properties of the transport *)

(** X14: [playPause] is a toggle: two calls in a row leave the player as a
    single refresh of the volume does, with the [paused] flag back where
    it was. *)
Theorem playPause_twice (Math_log Math_exp : float -> float) (a : App) :
  music_playPause Math_log Math_exp (music_playPause Math_log Math_exp a)
  = music_setVolume Math_log Math_exp (getVolume (settings a)) a
  /\ paused (audio (player (music (music_playPause Math_log Math_exp a))))
     = negb (paused (audio (player (music a)))).
Proof.
  destruct a as [[[[is_paused vol] song ctx src an filters] q cursor catalog] stored n].
  unfold music_playPause, music_setVolume, with_music, with_player, set_volume,
    audio_play, audio_pause, getVolume.
  simpl. destruct is_paused; simpl; split; reflexivity.
Qed.

Lemma ensure_after_await_count a :
  contexts_created (ensure_after_await a) = contexts_created a.
Proof. unfold ensure_after_await. destruct (is_suspended _); reflexivity. Qed.

Lemma ensure_after_await_graph a : has_graph a -> has_graph (ensure_after_await a).
Proof.
  unfold ensure_after_await, has_graph. intros [ctx Hctx].
  destruct (is_suspended _); simpl; rewrite Hctx; simpl; eauto.
Qed.

(** The two halves make up the whole call. *)
Lemma ensure_in_two_steps host_state createEqFilters connectEqFilters applyEqSettings a :
  ensureAudioContextAndFilters host_state createEqFilters connectEqFilters
    applyEqSettings a
  = match audioContext (player (music a)) with
    | None =>
        ensure_after_await
          (ensure_until_await host_state createEqFilters connectEqFilters
             applyEqSettings a)
    | Some _ =>
        ensure_until_await host_state createEqFilters connectEqFilters applyEqSettings a
    end.
Proof.
  unfold ensureAudioContextAndFilters, ensure_until_await, ensure_after_await.
  destruct (audioContext (player (music a))); [reflexivity|].
  cbv zeta. simpl music.
  match goal with |- context [if ?c then _ else _] => destruct c end; reflexivity.
Qed.

Lemma ensure_until_await_count host_state createEqFilters connectEqFilters
    applyEqSettings a :
  contexts_created
    (ensure_until_await host_state createEqFilters connectEqFilters applyEqSettings a)
  = match audioContext (player (music a)) with
    | None => S (contexts_created a)
    | Some _ => contexts_created a
    end.
Proof.
  unfold ensure_until_await.
  destruct (audioContext (player (music a))) as [ctx|]; [|reflexivity].
  destruct (state ctx); reflexivity.
Qed.

Lemma ensure_until_await_graph host_state createEqFilters connectEqFilters
    applyEqSettings a :
  keeps_context connectEqFilters ->
  (forall arg, keeps_context (applyEqSettings arg)) ->
  has_graph
    (ensure_until_await host_state createEqFilters connectEqFilters applyEqSettings a).
Proof.
  intros Hconnect Happly. unfold has_graph, ensure_until_await.
  destruct (audioContext (player (music a))) as [ctx|] eqn:Hctx.
  - destruct (state ctx); simpl; rewrite ?Hctx; simpl; eauto.
  - cbv zeta. simpl music. apply Happly, Hconnect. simpl. eauto.
Qed.

Lemma music_play_count Math_log Math_exp host_state createEqFilters connectEqFilters
    applyEqSettings store_play a :
  contexts_created
    (music_play Math_log Math_exp host_state createEqFilters connectEqFilters
       applyEqSettings store_play a)
  = match audioContext (player (music a)) with
    | None => S (contexts_created a)
    | Some _ => contexts_created a
    end.
Proof.
  unfold music_play. cbv zeta.
  destruct (audioContext (player (music a))) eqn:Hctx;
    rewrite ?ensure_after_await_count; unfold music_setVolume, with_music; simpl;
    rewrite ensure_until_await_count, Hctx; reflexivity.
Qed.

(** X15: [playPause] starts playback without building the audio graph:
    on a player that has no graph yet it leaves [audioContext] null, the
    filters as they were and no context created, where [play] creates
    one. *)
Theorem playPause_builds_no_graph
    (Math_log Math_exp : float -> float) (host_state : ContextState)
    (createEqFilters : MusicStore -> list BiquadFilter)
    (connectEqFilters : MusicStore -> MusicStore)
    (applyEqSettings : EqArgument -> MusicStore -> MusicStore)
    (store_play : MusicStore -> MusicStore) (a : App) :
  audioContext (player (music a)) = None ->
  paused (audio (player (music a))) = true ->
  paused (audio (player (music (music_playPause Math_log Math_exp a)))) = false
  /\ audioContext (player (music (music_playPause Math_log Math_exp a))) = None
  /\ eqFilters (player (music (music_playPause Math_log Math_exp a)))
     = eqFilters (player (music a))
  /\ contexts_created (music_playPause Math_log Math_exp a) = contexts_created a
  /\ contexts_created
       (music_play Math_log Math_exp host_state createEqFilters connectEqFilters
          applyEqSettings store_play a)
     = S (contexts_created a).
Proof.
  intros Hnone Hpaused.
  rewrite music_play_count, Hnone.
  destruct a as [[[[is_paused vol] song ctx src an filters] q cursor catalog] stored n].
  simpl in Hnone, Hpaused. subst ctx is_paused.
  unfold music_playPause, music_setVolume, with_music, with_player, set_volume,
    audio_play.
  simpl. repeat split; reflexivity.
Qed.

Lemma playPause_builds_no_graph_witness :
  paused (audio (player (music
    (music_playPause VolumeFacts.table_log VolumeFacts.exp_near_zero boot)))) = false
  /\ audioContext (player (music
       (music_playPause VolumeFacts.table_log VolumeFacts.exp_near_zero boot))) = None
  /\ eqFilters (player (music
       (music_playPause VolumeFacts.table_log VolumeFacts.exp_near_zero boot)))
     = eqFilters (player (music boot))
  /\ contexts_created (music_playPause VolumeFacts.table_log VolumeFacts.exp_near_zero boot)
     = contexts_created boot
  /\ contexts_created
       (music_play VolumeFacts.table_log VolumeFacts.exp_near_zero suspended
          spec_createEqFilters spec_connectEqFilters spec_applyEqSettings spec_play boot)
     = S (contexts_created boot).
Proof.
  apply (playPause_builds_no_graph VolumeFacts.table_log VolumeFacts.exp_near_zero
           suspended spec_createEqFilters spec_connectEqFilters spec_applyEqSettings
           spec_play boot); reflexivity.
Defined.

(** X16: pressing play again never builds a second graph: for store
    actions that do not take the context away, a second [play] creates no
    context, and a [play] creates at most one. *)
Theorem play_twice_one_graph
    (Math_log Math_exp : float -> float) (host_state : ContextState)
    (createEqFilters : MusicStore -> list BiquadFilter)
    (connectEqFilters : MusicStore -> MusicStore)
    (applyEqSettings : EqArgument -> MusicStore -> MusicStore)
    (store_play : MusicStore -> MusicStore) (a : App) :
  keeps_context connectEqFilters ->
  (forall arg, keeps_context (applyEqSettings arg)) ->
  keeps_context store_play ->
  let play := music_play Math_log Math_exp host_state createEqFilters connectEqFilters
                         applyEqSettings store_play in
  contexts_created (play (play a)) = contexts_created (play a)
  /\ contexts_created (play a) <= S (contexts_created a)
  /\ has_graph (play a).
Proof.
  intros Hconnect Happly Hplay play.
  assert (forall b, has_graph (play b)) as Hgraph.
  { intros b.
    assert (has_graph
              (with_music store_play
                 (music_setVolume Math_log Math_exp
                    (getVolume (settings (ensure_until_await host_state createEqFilters
                                            connectEqFilters applyEqSettings b)))
                    (ensure_until_await host_state createEqFilters connectEqFilters
                       applyEqSettings b)))) as Hstarted.
    { unfold has_graph. simpl. apply Hplay. simpl.
      apply (ensure_until_await_graph host_state createEqFilters connectEqFilters
               applyEqSettings b Hconnect Happly). }
    unfold play, music_play. cbv zeta.
    destruct (audioContext (player (music b)));
      [exact Hstarted|apply ensure_after_await_graph, Hstarted]. }
  split; [|split; [|apply Hgraph]].
  - unfold play at 1. rewrite music_play_count.
    destruct (Hgraph a) as [ctx Hctx]. fold play. rewrite Hctx. reflexivity.
  - unfold play. rewrite music_play_count.
    destruct (audioContext (player (music a))); lia.
Qed.

Lemma play_twice_one_graph_witness :
  contexts_created
    (music_play VolumeFacts.table_log VolumeFacts.exp_near_zero suspended
       spec_createEqFilters spec_connectEqFilters spec_applyEqSettings spec_play
       (music_play VolumeFacts.table_log VolumeFacts.exp_near_zero suspended
          spec_createEqFilters spec_connectEqFilters spec_applyEqSettings spec_play boot))
  = contexts_created
      (music_play VolumeFacts.table_log VolumeFacts.exp_near_zero suspended
         spec_createEqFilters spec_connectEqFilters spec_applyEqSettings spec_play boot)
  /\ contexts_created
       (music_play VolumeFacts.table_log VolumeFacts.exp_near_zero suspended
          spec_createEqFilters spec_connectEqFilters spec_applyEqSettings spec_play boot)
     <= S (contexts_created boot)
  /\ has_graph
       (music_play VolumeFacts.table_log VolumeFacts.exp_near_zero suspended
          spec_createEqFilters spec_connectEqFilters spec_applyEqSettings spec_play boot).
Proof.
  apply (play_twice_one_graph VolumeFacts.table_log VolumeFacts.exp_near_zero suspended
           spec_createEqFilters spec_connectEqFilters spec_applyEqSettings spec_play boot).
  - exact spec_connect_keeps.
  - exact spec_apply_keeps.
  - intros m Hm. exact Hm.
Defined.

(** * Further properties: retries, consistency, the context after a call *)

Lemma known_cover_path_dec id p :
  (exists ext, ext ∈ ["png"; "jpg"; "jpeg"; "gif"] /\ p = cover_path id ext)
  \/ (forall ext, ext ∈ ["png"; "jpg"; "jpeg"; "gif"] -> p <> cover_path id ext).
Proof.
  destruct (decide (p = cover_path id "png")) as [->|Hpng];
    [left; exists "png"; split; [set_solver|reflexivity]|].
  destruct (decide (p = cover_path id "jpg")) as [->|Hjpg];
    [left; exists "jpg"; split; [set_solver|reflexivity]|].
  destruct (decide (p = cover_path id "jpeg")) as [->|Hjpeg];
    [left; exists "jpeg"; split; [set_solver|reflexivity]|].
  destruct (decide (p = cover_path id "gif")) as [->|Hgif];
    [left; exists "gif"; split; [set_solver|reflexivity]|].
  right. intros ext Hin. apply list_elem_of_In in Hin. simpl in Hin.
  destruct Hin as [<- | [<- | [<- | [<- | []]]]]; assumption.
Qed.

Lemma reinstall_same_disk id (fs : gmap string bytes) target data :
  <[target := data]> (purge id (<[target := data]> (purge id fs)))
  = <[target := data]> (purge id fs).
Proof.
  apply map_eq. intros p.
  destruct (decide (target = p)) as [->|Hne]; [rewrite !lookup_insert_eq; reflexivity|].
  rewrite !lookup_insert_ne by exact Hne.
  destruct (known_cover_path_dec id p) as [(ext & Hext & ->) | Hother].
  - unfold purge. rewrite !lookup_purge_in_cover by exact Hext. reflexivity.
  - unfold purge at 1. rewrite lookup_purge_in_other by exact Hother.
    rewrite lookup_insert_ne by exact Hne. reflexivity.
Qed.

(** X17: repeating a completed update is harmless: on a file system that
    refuses nothing, the same update run a second time completes again and
    leaves the disk and the playlists table exactly as the first run left
    them. *)
Theorem updatePlaylistCover_repeat_is_idempotent
    (id : string) (coverPath : Js.value) (w : World) (data : bytes) :
  well_formed_descriptor coverPath ->
  files w !! source_path coverPath = Some data ->
  (forall ext, ext ∈ ["png"; "jpg"; "jpeg"; "gif"] ->
     source_path coverPath <> cover_path id ext) ->
  exists w1 w2,
    updatePlaylistCover reliable id coverPath w = (w1, Fulfilled tt)
    /\ updatePlaylistCover reliable id coverPath w1 = (w2, Fulfilled tt)
    /\ files w2 = files w1
    /\ playlists w2 = playlists w1.
Proof.
  intros Hwf Hsrc Hother. apply rejects_coverPath_iff in Hwf.
  destruct (updatePlaylistCover_reliable_run id coverPath w data Hwf Hsrc Hother)
    as (w1 & Hrun1 & Hf1 & Hp1).
  assert (files w1 !! source_path coverPath = Some data) as Hsrc1.
  { rewrite Hf1.
    destruct (decide (new_cover_path id coverPath = source_path coverPath)) as [->|Hne].
    - apply lookup_insert_eq.
    - rewrite lookup_insert_ne by exact Hne.
      unfold purge. rewrite lookup_purge_in_other by exact Hother. exact Hsrc. }
  destruct (updatePlaylistCover_reliable_run id coverPath w1 data Hwf Hsrc1 Hother)
    as (w2 & Hrun2 & Hf2 & Hp2).
  exists w1, w2. split; [exact Hrun1|]. split; [exact Hrun2|]. split.
  - rewrite Hf2, Hf1. apply reinstall_same_disk.
  - rewrite Hp2, Hp1. apply map_eq. intros k.
    destruct (decide (id = k)) as [->|Hk].
    + rewrite !lookup_alter_eq. destruct (playlists w !! k); reflexivity.
    + rewrite !lookup_alter_ne by exact Hk. reflexivity.
Qed.

Lemma updatePlaylistCover_repeat_is_idempotent_witness :
  exists w1 w2,
    updatePlaylistCover reliable "p1" (descriptor "Pictures/new.jpg") sample_world
      = (w1, Fulfilled tt)
    /\ updatePlaylistCover reliable "p1" (descriptor "Pictures/new.jpg") w1
       = (w2, Fulfilled tt)
    /\ files w2 = files w1
    /\ playlists w2 = playlists w1.
Proof.
  apply (updatePlaylistCover_repeat_is_idempotent "p1" (descriptor "Pictures/new.jpg")
           sample_world [Byte.xff; Byte.xd8]).
  - exists [("path", Js.str "Pictures/new.jpg")], "Pictures/new.jpg". split; reflexivity.
  - vm_compute. reflexivity.
  - intros ext Hext. apply list_elem_of_In in Hext. simpl in Hext.
    destruct Hext as [<- | [<- | [<- | [<- | []]]]]; vm_compute; discriminate.
Defined.

(** X18: the playlists table never points to a cover that was not
    written: in every environment, whenever a call has changed the table,
    the new cover file is on disk and the playlist's row names it. *)
Theorem updatePlaylistCover_table_follows_disk
    (fails : Op -> bool) (id : string) (coverPath : Js.value) (w : World) :
  playlists (updatePlaylistCover fails id coverPath w).1 <> playlists w ->
  is_Some (files (updatePlaylistCover fails id coverPath w).1
             !! new_cover_path id coverPath)
  /\ row_cover <$> playlists (updatePlaylistCover fails id coverPath w).1 !! id
     = Some (new_cover_path id coverPath).
Proof.
  intros Hchanged.
  destruct (rejects_coverPath coverPath) eqn:Hguard.
  { exfalso. apply Hchanged. unfold updatePlaylistCover. rewrite Hguard. reflexivity. }
  pose proof (updatePlaylistCover_outcome fails id coverPath w Hguard) as Hout.
  destruct (updatePlaylistCover fails id coverPath w) as [w' [[]|[msg|msg|op]]];
    simpl in *.
  - destruct Hout as (data & _ & Hf & Hp). split.
    + rewrite Hf, lookup_insert_eq. eauto.
    + rewrite Hp, lookup_alter_eq.
      destruct (playlists w !! id) as [row|] eqn:Hrow; [reflexivity|].
      exfalso. apply Hchanged. rewrite Hp. apply map_eq. intros k.
      destruct (decide (id = k)) as [<-|Hk].
      * rewrite lookup_alter_eq, Hrow. reflexivity.
      * apply lookup_alter_ne. exact Hk.
  - contradiction.
  - exfalso. apply Hchanged, Hout.
  - exfalso. apply Hchanged, Hout.
Qed.

Lemma updatePlaylistCover_table_follows_disk_witness :
  is_Some (files (updatePlaylistCover reliable "p1" (descriptor "Pictures/new.jpg")
                    sample_world).1
             !! new_cover_path "p1" (descriptor "Pictures/new.jpg"))
  /\ row_cover <$> playlists (updatePlaylistCover reliable "p1"
                                (descriptor "Pictures/new.jpg") sample_world).1 !! "p1"
     = Some (new_cover_path "p1" (descriptor "Pictures/new.jpg")).
Proof.
  apply (updatePlaylistCover_table_follows_disk reliable "p1"
           (descriptor "Pictures/new.jpg") sample_world).
  intros Heq. apply (f_equal (fun m => row_cover <$> m !! "p1")) in Heq.
  vm_compute in Heq. discriminate Heq.
Defined.


